(** * wordle.cpp: constraint filtering, letter scoring and ranking

    A shallow embedding of [src/wordle.cpp].  A [std::string] (and a
    [std::string_view] onto one) is the list of its chars, [int] values are
    [Z], [std::unordered_set] is a [gset] and [std::unordered_map] a [gmap].
    An operation whose behaviour C++ leaves undefined returns [None]. *)

From Stdlib Require Import ZArith Ascii String List.
From stdpp Require Import base decidable option list sorting gmap strings.

Local Open Scope Z_scope.

(** ** Chars and strings *)

Definition word : Type := list ascii.

(** A string literal, as the sequence of its chars. *)
Definition str (s : string) : word := list_ascii_of_string s.

(** The value of a char as an [unsigned char]. *)
Definition code (c : ascii) : Z := Z.of_N (N_of_ascii c).

(** [<cctype>] in the "C" locale (the program never calls [setlocale]).
    Bytes from 0x80 up are in no class, as in glibc's tables. *)
Module CType.

Definition isspace (c : ascii) : bool :=
  (code c =? 32) || ((9 <=? code c) && (code c <=? 13)).

Definition isupper (c : ascii) : bool := (65 <=? code c) && (code c <=? 90).

Definition islower (c : ascii) : bool := (97 <=? code c) && (code c <=? 122).

Definition isalpha (c : ascii) : bool := isupper c || islower c.

Definition tolower (c : ascii) : ascii :=
  if isupper c then ascii_of_N (N_of_ascii c + 32) else c.

End CType.
Import CType.

(** ** [validate]: trim, check and lower-case a word, in place *)

(** [while (!word.empty() && isspace(word.back())) word.pop_back();]
    One unit of fuel per iteration; [length word] iterations are enough. *)
Fixpoint pop_back_loop (fuel : nat) (w : word) : word :=
  match fuel with
  | O => w
  | S fuel' =>
      match last w with
      | Some c => if isspace c then pop_back_loop fuel' (removelast w) else w
      | None => w
      end
  end.

Definition pop_back_spaces (w : word) : word := pop_back_loop (length w) w.

(** [while (!word.empty() && isspace(word.front())) word.erase(word.begin());] *)
Fixpoint erase_front_spaces (w : word) : word :=
  match w with
  | [] => []
  | c :: rest => if isspace c then erase_front_spaces rest else w
  end.

(** [for (char &i : word) { if (!std::isalpha(i)) return false; i = std::tolower(i); }
    return true;]  The chars before the first non-letter have already been
    overwritten when the loop returns [false]. *)
Fixpoint lower_loop (w : word) : bool * word :=
  match w with
  | [] => (true, [])
  | c :: rest =>
      if isalpha c
      then let '(ok, rest') := lower_loop rest in (ok, tolower c :: rest')
      else (false, c :: rest)
  end.

(** [validate(std::string &word)]: the returned flag, and the contents of the
    caller's string after the call. *)
Definition validate (w : word) : bool * word :=
  let w1 := pop_back_spaces w in
  let w2 := erase_front_spaces w1 in
  if negb (length w2 =? 5)%nat then (false, w2) else lower_loop w2.

(** The caller's string once both trimming loops have run. *)
Definition trimmed (raw : word) : word := erase_front_spaces (pop_back_spaces raw).

(** ** The letter frequency table *)

Record letter_score : Type := LetterScore { ls_score : Z; ls_letters : word }.

Definition letter_scores : list letter_score :=
  [ LetterScore 12000 (str "e");
    LetterScore 9000 (str "t");
    LetterScore 8000 (str "ainos");
    LetterScore 6400 (str "h");
    LetterScore 6200 (str "r");
    LetterScore 4400 (str "d");
    LetterScore 4000 (str "l");
    LetterScore 3400 (str "u");
    LetterScore 3000 (str "cm");
    LetterScore 2500 (str "f");
    LetterScore 2000 (str "wy");
    LetterScore 1700 (str "gp");
    LetterScore 1600 (str "b");
    LetterScore 1200 (str "v");
    LetterScore 800 (str "k");
    LetterScore 500 (str "q");
    LetterScore 400 (str "jx");
    LetterScore 200 (str "z") ].

(** [s.contains(c)], and [s.find(c) != std::string::npos]. *)
Definition contains (s : word) (c : ascii) : bool := bool_decide (c ∈ s).

(** ** The library algorithms the program calls *)

Module Std.
Section Algorithms.
Context {A : Type} `{EqDecision A}.

(** ISO C++ [alg.sorting]: a sequence is sorted with respect to [comp] when
    an element is never [comp]-before one that precedes it. *)
Definition sorted_wrt (comp : A → A → bool) (l : list A) : Prop :=
  ∀ (i j : nat) (x y : A),
    (i < j)%nat → l !! i = Some x → l !! j = Some y → comp y x = false.

(** What [comp] must be for [std::ranges::sort] to be defined. *)
Record strict_weak_order (comp : A → A → bool) : Prop := StrictWeakOrder {
  swo_irrefl : ∀ x, comp x x = false;
  swo_trans : ∀ x y z, comp x y = true → comp y z = true → comp x z = true;
  swo_incomparable_trans : ∀ x y z,
    comp x y = false → comp y x = false →
    comp y z = false → comp z y = false →
    comp x z = false ∧ comp z x = false
}.

(** The postcondition of [std::ranges::sort(l, comp)]: the range holds a
    permutation of its former contents, sorted with respect to [comp].  The
    order of equivalent elements is not specified: the algorithm is not
    [stable_sort]. *)
Definition sort_result (comp : A → A → bool) (l out : list A) : Prop :=
  l ≡ₚ out ∧ sorted_wrt comp out.

(** [x] may stand before [y] in a range sorted with respect to [comp]. *)
Definition not_after (comp : A → A → bool) (x y : A) : Prop := comp y x = false.

Global Instance not_after_dec comp : RelDecision (not_after comp).
Proof. intros x y. unfold not_after. apply _. Defined.

(** An executable sort.  When no two distinct elements are equivalent under
    [comp] the postcondition has one solution only ([sort_result_unique]),
    so this is what [std::ranges::sort] returns, whatever its algorithm. *)
Definition sort (comp : A → A → bool) (l : list A) : list A :=
  merge_sort (not_after comp) l.

(** [std::unique] followed by [erase]: of every run of equal consecutive
    elements the first is kept. *)
Fixpoint unique_from (prev : A) (l : list A) : list A :=
  match l with
  | [] => []
  | x :: rest =>
      if decide (x = prev) then unique_from prev rest
      else x :: unique_from x rest
  end.

Definition unique (l : list A) : list A :=
  match l with
  | [] => []
  | x :: rest => x :: unique_from x rest
  end.

(** [std::reduce(first, last, init, op)] over random access iterators, as
    libstdc++ runs it: four elements at a time, then the rest one by one,
    the operands always in sequence order. *)
Fixpoint reduce (op : A → A → A) (l : list A) (init : A) : A :=
  match l with
  | x0 :: x1 :: x2 :: x3 :: rest =>
      let v1 := op x0 x1 in
      let v2 := op x2 x3 in
      let v3 := op v1 v2 in
      reduce op rest (op init v3)
  | _ => foldl op init l
  end.

End Algorithms.
End Std.

(** ** [score] *)

(** [operator<] on [char], by character code.  Where [char] is signed the
    chars from 0x80 up come first instead; [score] only takes the set of the
    letters from the sorted word, and does not depend on their order. *)
Definition char_less (a b : ascii) : bool := bool_decide (code a < code b).

(** The inner loop of [score]: the first table entry whose letters hold [c]
    adds its score to [value], and the loop breaks. *)
Fixpoint add_letter_score (table : list letter_score) (c : ascii) (value : Z) : Z :=
  match table with
  | [] => value
  | e :: rest =>
      if contains (ls_letters e) c then value + ls_score e
      else add_letter_score rest c value
  end.

Definition score (word_data : word) : Z :=
  let w := Std.unique (Std.sort char_less word_data) in
  foldl (λ value c, add_letter_score letter_scores c value) 0 w.

(** The letters [score] adds up: each letter of the word, once. *)
Definition distinct_letters (w : word) : list ascii :=
  Std.unique (Std.sort char_less w).

(** The weight of a letter: the score of its group, 0 for a char in none. *)
Definition weight_of (c : ascii) : Z := add_letter_score letter_scores c 0.

(** The letters of the table, group after group. *)
Definition alphabet : list ascii := mjoin (ls_letters <$> letter_scores).

(** The sum of the weights over a list of letters. *)
Definition sum_weights (letters : list ascii) : Z :=
  foldr (λ c acc, weight_of c + acc) 0 letters.

(** ** Constraints and [solve] *)

Inductive constraint_kind : Type := not_present | present | perfect.

Record constraint : Type := Constraint {
  kind : constraint_kind;
  letter : ascii;
  position : option Z;          (* std::optional<std::uint8_t> *)
  exclude_positions : list Z    (* std::vector<int> *)
}.

(** [word[pos]] on a [const std::string]: the char at [pos]; for
    [pos == size()] a reference to [char()]; beyond that, undefined.  A
    negative [int] converts to a [size_type] past any size. *)
Definition word_at (w : word) (pos : Z) : option ascii :=
  if (0 <=? pos) && (pos <? Z.of_nat (length w)) then w !! Z.to_nat pos
  else if pos =? Z.of_nat (length w) then Some zero
  else None.

(** The loop over [exclude_positions] in the [present] case. *)
Fixpoint exclude_loop (w : word) (l : ascii) (excl : list Z) (fail : bool)
  : option bool :=
  match excl with
  | [] => Some fail
  | exclude_pos :: rest =>
      c ← word_at w exclude_pos;
      exclude_loop w l rest (if decide (c = l) then true else fail)
  end.

(** One pass of the [switch] over a constraint: the new value of [fail]. *)
Definition check_constraint (w : word) (c : constraint) (fail : bool)
  : option bool :=
  match kind c with
  | not_present =>
      Some (if contains w (letter c) then true else fail)
  | present =>
      if negb (contains w (letter c)) then Some true
      else exclude_loop w (letter c) (exclude_positions c) fail
  | perfect =>
      p ← position c;            (* [*position] of an empty optional: undefined *)
      ch ← word_at w p;
      Some (if decide (ch ≠ letter c) then true else fail)
  end.

(** The loop over [cs]: it does not stop at the first failure. *)
Fixpoint check_constraints (w : word) (cs : list constraint) (fail : bool)
  : option bool :=
  match cs with
  | [] => Some fail
  | c :: rest => fail' ← check_constraint w c fail; check_constraints w rest fail'
  end.

(** The body of the loop over [words]: [fail] after all constraints. *)
Definition word_fails (cs : list constraint) (w : word) : option bool :=
  check_constraints w cs false.

(** The loop over [words], threading [legal_words]. *)
Fixpoint solve_loop (cs : list constraint) (words legal_words : list word)
  : option (list word) :=
  match words with
  | [] => Some legal_words
  | w :: rest =>
      fail ← word_fails cs w;
      solve_loop cs rest (if fail : bool then legal_words else legal_words ++ [w])
  end.

Definition solve (cs : list constraint) (words : list word) : option (list word) :=
  solve_loop cs words [].

(** The words [solve] keeps: those on which [fail] is still [false] at the
    end of the loop over the constraints. *)
Definition kept (cs : list constraint) (w : word) : Prop := word_fails cs w = Some false.

Global Instance kept_dec cs w : Decision (kept cs w).
Proof. unfold kept. apply _. Defined.

(** The positions at which evaluating [c] on [w] indexes the word. *)
Definition indexed_positions (w : word) (c : constraint) : list Z :=
  match kind c with
  | not_present => []
  | present => if contains w (letter c) then exclude_positions c else []
  | perfect => match position c with Some p => [p] | None => [] end
  end.

(** The constraints [main] solves for. *)
Definition main_cs : list constraint :=
  [ Constraint not_present "s" None [];
    Constraint not_present "t" None [];
    Constraint not_present "n" None [];
    Constraint present "e" None [0; 2; 4];
    Constraint perfect "l" (Some 4) [];
    Constraint not_present "w" None [];
    Constraint not_present "h" None [];
    Constraint not_present "o" None [];
    Constraint not_present "q" None [];
    Constraint not_present "u" None [];
    Constraint not_present "a" None [];
    Constraint not_present "i" None [] ].

(** ** The pipeline of [main] *)

(** [std::string_view::compare]: the chars of the common prefix are compared
    as [unsigned char]; if they agree, the shorter view is the smaller. *)
Fixpoint sv_compare (a b : word) : comparison :=
  match a, b with
  | [], [] => Eq
  | [], _ :: _ => Lt
  | _ :: _, [] => Gt
  | x :: a', y :: b' =>
      match code x ?= code y with
      | Eq => sv_compare a' b'
      | r => r
      end
  end.

(** [operator<] on [std::string_view], the order of [std::ranges::sort(legal_words)]. *)
Definition sv_less (a b : word) : bool :=
  match sv_compare a b with Lt => true | _ => false end.

(** [dict]: every dictionary word is emplaced into the set. *)
Definition make_dict (dictionary_words : list word) : gset word :=
  list_to_set dictionary_words.

(** The loop that erases from [legal_words] the words [dict] does not hold. *)
Fixpoint prune (dict : gset word) (legal_words : list word) : list word :=
  match legal_words with
  | [] => []
  | w :: rest =>
      if bool_decide (w ∈ dict) then w :: prune dict rest else prune dict rest
  end.

(** [legal_words] when "dictionary matches" are reported: [solve], the
    dictionary prune, [std::ranges::sort], then [unique] and [erase]. *)
Definition filter_candidates (cs : list constraint) (words dictionary_words : list word)
  : option (list word) :=
  legal_words ← solve cs words;
  Some (Std.unique (Std.sort sv_less (prune (make_dict dictionary_words) legal_words))).

(** [m.emplace(k, v)]: nothing happens when the key is there already. *)
Definition emplace (k : word) (v : Z) (m : gmap word Z) : gmap word Z :=
  match m !! k with
  | Some _ => m
  | None => <[k := v]> m
  end.

(** [letter_freq_words] after the loop that fills it. *)
Definition letter_freq_words (legal_words : list word) : gmap word Z :=
  foldl (λ m w, emplace w (score w) m) ∅ legal_words.

(** The value of [m[k]]; a missing key is inserted with the value 0. *)
Definition map_index (m : gmap word Z) (k : word) : Z := default 0 (m !! k).

(** The comparator of the sort by letter frequency:
    [letter_freq_words[r] < letter_freq_words[l]]. *)
Definition by_letter_freq (m : gmap word Z) (l r : word) : bool :=
  bool_decide (map_index m r < map_index m l).

(** [out] is a value [legal_words] may hold after
    [std::ranges::sort(legal_words, comparator)]. *)
Definition rank_by_letter_score (legal_words out : list word) : Prop :=
  Std.sort_result (by_letter_freq (letter_freq_words legal_words)) legal_words out.

(** The operation [std::reduce] folds the corpus with. *)
Definition better (word1 word2 : word) : word :=
  if bool_decide (score word1 > score word2) then word1 else word2.

(** [best_word]; [words.front()] of an empty corpus is undefined. *)
Definition best_word (words : list word) : option word :=
  match words with
  | [] => None
  | front :: rest => Some (Std.reduce better rest front)
  end.

(** ** What the properties are stated with *)

(** Every char of [s] is white space. *)
Definition all_spaces (s : word) : Prop := Forall (λ c, isspace c = true) s.

(** The char, if there is one, is not white space. *)
Definition no_space_at (c : option ascii) : Prop :=
  match c with Some x => isspace x = false | None => True end.

(** A position of a word of [n] chars. *)
Definition in_range (n : nat) (i : Z) : Prop := 0 ≤ i < Z.of_nat n.

(** The positions a constraint names are positions of a word of [n] chars. *)
Definition constraint_in_range (n : nat) (c : constraint) : Prop :=
  match kind c with
  | not_present => True
  | present => Forall (in_range n) (exclude_positions c)
  | perfect => ∃ p, position c = Some p ∧ in_range n p
  end.

(** A word satisfies a constraint: the letter is absent; or it is present and
    at none of the excluded positions; or it stands at the position. *)
Definition satisfies (w : word) (c : constraint) : Prop :=
  match kind c with
  | not_present => letter c ∉ w
  | present =>
      letter c ∈ w ∧ ∀ i, i ∈ exclude_positions c → word_at w i ≠ Some (letter c)
  | perfect => ∃ p, position c = Some p ∧ word_at w p = Some (letter c)
  end.

(** How many times [w] stands in [l]. *)
Definition occurrences (w : word) (l : list word) : nat :=
  length (filter (λ v, v = w) l).

(** Going along [l], [key] never goes up. *)
Definition non_increasing (key : word → Z) (l : list word) : Prop :=
  ∀ (i j : nat) (x y : word),
    (i < j)%nat → l !! i = Some x → l !! j = Some y → key y ≤ key x.

(** The words of one key stand in [out] in the order they have in [l]. *)
Definition stable_wrt (key : word → Z) (l out : list word) : Prop :=
  ∀ k : Z, filter (λ w, key w = k) out = filter (λ w, key w = k) l.

(** [w] is the last word of [words] whose score no word of [words] exceeds. *)
Definition last_of_max_score (words : list word) (w : word) : Prop :=
  ∃ before after,
    words = before ++ w :: after ∧
    Forall (λ v, score v ≤ score w) before ∧
    Forall (λ v, score v < score w) after.

(** [w] is the first word of [words] whose score no word of [words] exceeds. *)
Definition first_of_max_score (words : list word) (w : word) : Prop :=
  ∃ before after,
    words = before ++ w :: after ∧
    Forall (λ v, score v < score w) before ∧
    Forall (λ v, score v ≤ score w) after.

(** ** Sample data *)

(** Seventeen words of one letter score (43200), in lexicographic order. *)
Definition tie_candidates : list word :=
  str <$> [ "aster"; "inert"; "inter"; "irate"; "niter"; "orate"; "rates";
            "resit"; "rites"; "stare"; "store"; "tares"; "tears"; "tenor";
            "tiers"; "tires"; "tries" ]%string.

(** The order in which the introsort of libstdc++ 12 leaves them. *)
Definition tie_ranked : list word :=
  str <$> [ "rites"; "tries"; "tires"; "tiers"; "tenor"; "tears"; "tares";
            "store"; "stare"; "aster"; "resit"; "rates"; "orate"; "niter";
            "irate"; "inter"; "inert" ]%string.

(** ** Reading the word lists *)

(** A file: its bytes, or [None] when it cannot be opened. *)
Definition file : Type := option (list ascii).

(** The lines successive calls of [std::getline] extract, until one fails:
    a line ends at a newline, which is dropped, or at the end of the file. *)
Fixpoint getlines (content : list ascii) : list word :=
  match content with
  | [] => []
  | c :: rest =>
      if decide (c = "010"%char) then [] :: getlines rest
      else match getlines rest with
           | [] => [[c]]
           | line :: lines => (c :: line) :: lines
           end
  end.

(** On a stream that failed to open no [getline] succeeds. *)
Definition read_lines (f : file) : list word :=
  match f with
  | None => []
  | Some content => getlines content
  end.

(** The loop of [load_words] and of [load_spelling_dictionary], threading
    [words]: a line [validate] accepts is moved into the vector as
    [validate] left it. *)
Fixpoint load_loop (lines words : list word) : list word :=
  match lines with
  | [] => words
  | line :: rest =>
      let '(ok, w) := validate line in
      load_loop rest (if ok then words ++ [w] else words)
  end.

Definition load_words (words_umich : file) : list word :=
  load_loop (read_lines words_umich) [].

Definition load_spelling_dictionary (english_dictionary : file) : list word :=
  load_loop (read_lines english_dictionary) [].

(** What [std::stoi] and [substr] throw; [main] catches nothing. *)
Inductive exception : Type := invalid_argument | out_of_range.

(** [std::size_t] arithmetic, and [std::string::npos]. *)
Definition size_t_wrap (z : Z) : Z := z mod 2 ^ 64.

Definition npos : Z := 2 ^ 64 - 1.

(** The index of the first [c] in [s], counted from [i] at the head of [s]. *)
Fixpoint find_at (c : ascii) (s : word) (i : Z) : Z :=
  match s with
  | [] => npos
  | x :: rest => if decide (x = c) then i else find_at c rest (i + 1)
  end.

(** [s.find(c, pos)]. *)
Definition find (s : word) (c : ascii) (pos : Z) : Z :=
  if Z.of_nat (length s) <? pos then npos
  else find_at c (drop (Z.to_nat pos) s) pos.

(** [s.substr(pos, n)]: it throws when [pos > size()]. *)
Definition substr (s : word) (pos n : Z) : exception + word :=
  if Z.of_nat (length s) <? pos then inl out_of_range
  else inr (take (Z.to_nat (Z.min n (Z.of_nat (length s) - pos)))
                 (drop (Z.to_nat pos) s)).

Definition isdigit (c : ascii) : bool := (48 <=? code c) && (code c <=? 57).

(** The value of the leading decimal digits of [s], after [acc]. *)
Fixpoint digits_value (s : word) (acc : Z) : Z :=
  match s with
  | [] => acc
  | c :: rest =>
      if isdigit c then digits_value rest (10 * acc + (code c - 48)) else acc
  end.

(** [std::stoi(s)], that is [strtol] in base 10 behind a range check: white
    space is skipped, then a sign may come, then digits; what follows them is
    ignored.  Without a digit there it throws [invalid_argument], with a
    value no [int] holds [out_of_range]. *)
Definition stoi (s : word) : exception + Z :=
  let s1 := erase_front_spaces s in
  let '(negative, s2) :=
    match s1 with
    | c :: rest =>
        if decide (c = "-"%char) then (true, rest)
        else if decide (c = "+"%char) then (false, rest)
        else (false, s1)
    | [] => (false, s1)
    end in
  match s2 with
  | c :: _ =>
      if isdigit c then
        let v := if negative then - digits_value s2 0 else digits_value s2 0 in
        if (- 2 ^ 31 <=? v) && (v <=? 2 ^ 31 - 1) then inr v else inl out_of_range
      else inl invalid_argument
  | [] => inl invalid_argument
  end.

(** The two fields [load_words_2] cuts out of a line: [word] and [freq]. *)
Definition line_fields (line : word) : exception + (word * word) :=
  let size := Z.of_nat (length line) in
  let word_pos := find line "009"%char 0 in
  let freq_pos := find line "009"%char (size_t_wrap (word_pos + 1)) in
  match substr line (size_t_wrap (word_pos + 1))
               (size_t_wrap (freq_pos - word_pos - 1)) with
  | inl e => inl e
  | inr w =>
      match substr line (size_t_wrap (freq_pos + 1))
                   (size_t_wrap (size - freq_pos)) with
      | inl e => inl e
      | inr freq => inr (w, freq)
      end
  end.

(** The loop of [load_words_2], threading [words] and [freqs]. *)
Fixpoint load_words_2_loop (lines words : list word) (freqs : list Z)
  : exception + (list word * list Z) :=
  match lines with
  | [] => inr (words, freqs)
  | line :: rest =>
      match line_fields line with
      | inl e => inl e
      | inr (w, freq) =>
          let '(ok, w') := validate w in
          if negb ok then load_words_2_loop rest words freqs
          else match stoi freq with
               | inl e => inl e
               | inr n => load_words_2_loop rest (words ++ [w']) (freqs ++ [n])
               end
      end
  end.

Definition load_words_2 (eng_news : file) : exception + (list word * list Z) :=
  load_words_2_loop (read_lines eng_news) [] [].

(** ** The word frequencies in [main] *)

(** The loop that fills [freq_words]: [words[i]] is emplaced with
    [freqs[i]]; a [freqs] shorter than [words] is indexed past its end. *)
Fixpoint freq_words_loop (words : list word) (freqs : list Z) (m : gmap word Z)
  : option (gmap word Z) :=
  match words, freqs with
  | [], _ => Some m
  | _ :: _, [] => None
  | w :: words', f :: freqs' => freq_words_loop words' freqs' (emplace w f m)
  end.

Definition freq_words (words : list word) (freqs : list Z) : option (gmap word Z) :=
  freq_words_loop words freqs ∅.



(** [legal_words | std::ranges::views::take(15)]: the words printed. *)
Definition shown (legal_words : list word) : list word := take 15 legal_words.


(** A file that holds the lines, each ended by a newline. *)
Definition unlines (lines : list word) : list ascii :=
  mjoin ((λ line, line ++ ["010"%char]) <$> lines).

(** [std::string::max_size()] is below this: no string is longer. *)
Definition fits_string (s : word) : Prop := Z.of_nat (length s) < 2 ^ 63.

(** A record of the news corpus: an id, the word and its frequency, with a
    tab between them. *)
Definition record_line (id wd fq : word) : word :=
  id ++ "009"%char :: wd ++ "009"%char :: fq.

(** A value an [int] holds. *)
Definition int_range (n : Z) : Prop := - 2 ^ 31 ≤ n ≤ 2 ^ 31 - 1.

(** Five lower-case letters. *)
Definition canonical (w : word) : Prop :=
  length w = 5%nat ∧ Forall (λ c, islower c = true) w.

(** No tab in the string. *)
Definition tabless (s : word) : Prop := "009"%char ∉ s.

(** * Properties *)

(** ** [validate] *)

Section ctype_facts.
Ltac by_cases c := destruct c as [[] [] [] [] [] [] [] []]; vm_compute; intuition congruence.

Lemma tolower_isalpha c : isalpha c = true → isalpha (tolower c) = true.
Proof. by_cases c. Qed.
Lemma tolower_idemp c : tolower (tolower c) = tolower c.
Proof. by_cases c. Qed.
Lemma isalpha_not_space c : isalpha c = true → isspace c = false.
Proof. by_cases c. Qed.
End ctype_facts.

Lemma lower_loop_true t w :
  lower_loop t = (true, w) → w = tolower <$> t ∧ Forall (λ c, isalpha c = true) t.
Proof.
  revert w. induction t as [|c t IH]; intros w; simpl.
  - intros [= <-]. by split.
  - destruct (isalpha c) eqn:Hc; [|done].
    destruct (lower_loop t) as [ok t'] eqn:Ht. intros [= -> <-].
    destruct (IH _ eq_refl) as [-> Hall]. split; [done|by constructor].
Qed.

Lemma lower_loop_all_alpha t :
  Forall (λ c, isalpha c = true) t → lower_loop t = (true, tolower <$> t).
Proof.
  induction 1 as [|c t Hc _ IH]; simpl; [done|]. by rewrite Hc, IH.
Qed.

Lemma lower_loop_stops good c rest :
  Forall (λ c, isalpha c = true) good → isalpha c = false →
  lower_loop (good ++ c :: rest) = (false, (tolower <$> good) ++ c :: rest).
Proof.
  intros Hgood Hc. induction Hgood as [|x good Hx _ IH]; simpl.
  - by rewrite Hc.
  - by rewrite Hx, IH.
Qed.

Lemma pop_back_spaces_id w c :
  last w = Some c → isspace c = false → pop_back_spaces w = w.
Proof.
  intros Hlast Hc. unfold pop_back_spaces. destruct w as [|x w]; [done|].
  cbn [length pop_back_loop]. by rewrite Hlast, Hc.
Qed.

Lemma erase_front_spaces_id c w :
  isspace c = false → erase_front_spaces (c :: w) = c :: w.
Proof. intros Hc. simpl. by rewrite Hc. Qed.

Lemma validate_accepts_length raw w : validate raw = (true, w) → length w = 5%nat.
Proof.
  unfold validate. destruct (length _ =? 5)%nat eqn:Hlen; [|done]. simpl.
  intros [-> _]%lower_loop_true. rewrite length_fmap. by apply Nat.eqb_eq.
Qed.

(** C9: normalisation is idempotent on what it accepts.  When [validate]
    accepts a raw string and leaves the word [w] in it, [validate] accepts
    [w] too and leaves it as it is. *)
Theorem validate_idempotent (raw w : word) :
  validate raw = (true, w) → validate w = (true, w).
Proof.
  unfold validate. destruct (length _ =? 5)%nat eqn:Hlen; [|done]. simpl.
  intros [-> Hall]%lower_loop_true.
  set (t := erase_front_spaces (pop_back_spaces raw)) in *.
  apply Nat.eqb_eq in Hlen.
  assert (Hlow : Forall (λ c, isalpha c = true) (tolower <$> t)).
  { rewrite Forall_fmap. eapply Forall_impl; [exact Hall|]. intros c. apply tolower_isalpha. }
  assert (Hlen' : length (tolower <$> t) = 5%nat) by by rewrite length_fmap.
  destruct (tolower <$> t) as [|c0 u] eqn:Hu; [done|].
  assert (Hback : pop_back_spaces (c0 :: u) = c0 :: u).
  { destruct (last (c0 :: u)) as [c|] eqn:Hl.
    - apply (pop_back_spaces_id _ c); [done|]. apply isalpha_not_space.
      eapply Forall_forall in Hlow; [exact Hlow|]. by eapply last_Some_elem_of.
    - by apply last_None in Hl. }
  rewrite Hback, erase_front_spaces_id by (apply isalpha_not_space; by inv Hlow).
  rewrite Hlen'. simpl negb. cbv iota.
  rewrite lower_loop_all_alpha by done. f_equal.
  rewrite <-Hu, <-list_fmap_compose. apply list_fmap_ext. intros ???. apply tolower_idemp.
Qed.

Lemma pop_back_loop_suffix n w :
  ∃ post, w = pop_back_loop n w ++ post ∧ all_spaces post.
Proof.
  revert w. induction n as [|n IH]; intros w; simpl.
  { exists []. split; [by rewrite app_nil_r|constructor]. }
  destruct (last w) as [c|] eqn:Hl; [|exists []; split; [by rewrite app_nil_r|constructor]].
  destruct (isspace c) eqn:Hc; [|exists []; split; [by rewrite app_nil_r|constructor]].
  apply last_Some in Hl as [w' ->]. rewrite removelast_last.
  destruct (IH w') as (post & Hw' & Hpost). exists (post ++ [c]). split.
  - by rewrite app_assoc, <-Hw'.
  - apply Forall_app. split; [done|]. by constructor.
Qed.

Lemma pop_back_loop_last n w :
  (length w ≤ n)%nat → no_space_at (last (pop_back_loop n w)).
Proof.
  revert w. induction n as [|n IH]; intros w Hn; simpl.
  { destruct w; [done|simpl in Hn; lia]. }
  destruct (last w) as [c|] eqn:Hl; [|by rewrite Hl].
  destruct (isspace c) eqn:Hc; [|by rewrite Hl].
  apply last_Some in Hl as [w' ->]. rewrite removelast_last. apply IH.
  rewrite length_app in Hn. simpl in Hn. lia.
Qed.

Lemma erase_front_spaces_prefix w :
  ∃ pre, w = pre ++ erase_front_spaces w ∧ all_spaces pre ∧
         no_space_at (head (erase_front_spaces w)).
Proof.
  induction w as [|c w (pre & Hw & Hpre & Hhd)]; simpl.
  { exists []. split; [done|]. split; [constructor|done]. }
  destruct (isspace c) eqn:Hc.
  - exists (c :: pre). split; [by rewrite Hw at 1|]. split; [by constructor|done].
  - exists []. split; [done|]. split; [constructor|done].
Qed.

Lemma erase_front_spaces_last w :
  no_space_at (last w) → no_space_at (last (erase_front_spaces w)).
Proof.
  induction w as [|c w IH]; simpl; [done|]. intros Hl.
  destruct (isspace c) eqn:Hc; [|done].
  apply IH. destruct w as [|d w]; [done|]. by rewrite last_cons_cons in Hl.
Qed.

Lemma trimmed_spec raw :
  ∃ pre post, raw = pre ++ trimmed raw ++ post ∧ all_spaces pre ∧ all_spaces post ∧
              no_space_at (head (trimmed raw)) ∧ no_space_at (last (trimmed raw)).
Proof.
  unfold trimmed, pop_back_spaces.
  destruct (pop_back_loop_suffix (length raw) raw) as (post & Hraw & Hpost).
  pose proof (pop_back_loop_last (length raw) raw (le_n _)) as Hlast.
  destruct (erase_front_spaces_prefix (pop_back_loop (length raw) raw))
    as (pre & Hmid & Hpre & Hhd).
  exists pre, post. split; [|by auto using erase_front_spaces_last].
  by rewrite app_assoc, <-Hmid.
Qed.

Lemma validate_idempotent_witness :
  validate (str " Hello ") = (true, str "hello") ∧
  validate (str "hello") = (true, str "hello").
Proof.
  split; [reflexivity|].
  apply (validate_idempotent (str " Hello ") (str "hello")). reflexivity.
Defined.

(** C5, as amended: [validate] works in place.  After the call the caller's
    string is the raw string without its leading and trailing white space
    (the rejection for a wrong length leaves it so); when the word is
    accepted every char is lower-cased as well; when a char that is not a
    letter rejects it, the chars before that one are lower-cased. *)
Theorem validate_in_place (raw : word) :
  (∃ pre post, raw = pre ++ trimmed raw ++ post ∧ all_spaces pre ∧ all_spaces post ∧
               no_space_at (head (trimmed raw)) ∧ no_space_at (last (trimmed raw))) ∧
  (length (trimmed raw) ≠ 5%nat → validate raw = (false, trimmed raw)) ∧
  (length (trimmed raw) = 5%nat →
     (Forall (λ c, isalpha c = true) (trimmed raw) →
        validate raw = (true, tolower <$> trimmed raw)) ∧
     (∀ good c rest,
        trimmed raw = good ++ c :: rest →
        Forall (λ c, isalpha c = true) good → isalpha c = false →
        validate raw = (false, (tolower <$> good) ++ c :: rest))).
Proof.
  split; [apply trimmed_spec|]. unfold validate. fold (trimmed raw). split.
  - intros Hlen. apply Nat.eqb_neq in Hlen. by rewrite Hlen.
  - intros Hlen. rewrite Hlen. simpl. split.
    + apply lower_loop_all_alpha.
    + intros good c rest -> Hgood Hc. by apply lower_loop_stops.
Qed.

Lemma validate_in_place_witness :
  length (trimmed (str " Hello ")) = 5%nat ∧
  validate (str " Hello ") = (true, str "hello").
Proof.
  split; [reflexivity|].
  apply (proj1 (proj2 (proj2 (validate_in_place (str " Hello "))) eq_refl)).
  by apply (bool_decide_unpack _).
Defined.

(** C5 fails as stated: the call changes the caller's string, when it accepts
    the word and when it rejects it. *)
Lemma validate_modifies_string :
  validate (str " Hello ") = (true, str "hello") ∧ str "hello" ≠ str " Hello " ∧
  validate (str "AB1DE") = (false, str "ab1DE") ∧ str "ab1DE" ≠ str "AB1DE".
Proof. repeat split; try reflexivity; discriminate. Qed.

(** ** The library algorithms *)

Section std_facts.
Context {A : Type} `{EqDecision A}.
Implicit Types (comp : A → A → bool) (l out : list A).

Lemma sorted_wrt_cons comp x l :
  Std.sorted_wrt comp (x :: l) ↔
  Forall (Std.not_after comp x) l ∧ Std.sorted_wrt comp l.
Proof.
  unfold Std.sorted_wrt. split.
  - intros Hs. split.
    + apply Forall_lookup. intros j y Hy. apply (Hs 0%nat (S j) x y); [lia|done..].
    + intros i j a b Hij Ha Hb. apply (Hs (S i) (S j) a b); [lia|done..].
  - intros [Hx Hs] i j a b Hij Ha Hb. destruct j as [|j]; [lia|].
    destruct i as [|i]; simpl in *.
    + injection Ha as <-. by eapply (Forall_lookup_1 _ _ _ _ Hx).
    + apply (Hs i j a b); [lia|done..].
Qed.

Lemma sorted_wrt_StronglySorted comp l :
  Std.sorted_wrt comp l ↔ StronglySorted (Std.not_after comp) l.
Proof.
  induction l as [|x l IH].
  - split; [constructor|]. by intros _ [] ?.
  - rewrite sorted_wrt_cons, StronglySorted_cons, IH. done.
Qed.

Lemma swo_asym comp x y :
  Std.strict_weak_order comp → comp x y = true → comp y x = false.
Proof.
  intros Hswo Hxy. destruct (comp y x) eqn:Hyx; [|done].
  by rewrite <-(Std.swo_irrefl _ Hswo x), (Std.swo_trans _ Hswo x y x).
Qed.

Lemma not_after_total comp :
  Std.strict_weak_order comp → Total (Std.not_after comp).
Proof.
  intros Hswo x y. unfold Std.not_after.
  destruct (comp y x) eqn:Hyx; [right|by left]. by apply swo_asym.
Qed.

Lemma not_after_transitive comp :
  Std.strict_weak_order comp → Transitive (Std.not_after comp).
Proof.
  intros Hswo x y z. unfold Std.not_after. intros Hyx Hzy.
  destruct (comp z x) eqn:Hzx; [|done].
  destruct (comp x y) eqn:Hxy.
  { by rewrite <-Hzy, (Std.swo_trans _ Hswo z x y). }
  destruct (comp y z) eqn:Hyz.
  { by rewrite <-Hyx, (Std.swo_trans _ Hswo y z x). }
  destruct (Std.swo_incomparable_trans _ Hswo x y z) as [_ Hzx']; congruence.
Qed.

(** [Std.sort] meets the postcondition of [std::ranges::sort]. *)
Lemma sort_sort_result comp l :
  Std.strict_weak_order comp → Std.sort_result comp l (Std.sort comp l).
Proof.
  intros Hswo. pose proof (not_after_total comp Hswo).
  pose proof (not_after_transitive comp Hswo). split.
  - symmetry. apply merge_sort_Permutation.
  - apply sorted_wrt_StronglySorted, StronglySorted_merge_sort; done.
Qed.

(** Where [comp] leaves no two distinct elements equivalent, the
    postcondition determines the result. *)
Lemma sort_result_unique comp l out1 out2 :
  (∀ x y, comp x y = false → comp y x = false → x = y) →
  Std.sort_result comp l out1 → Std.sort_result comp l out2 → out1 = out2.
Proof.
  intros Htot [Hp1 Hs1] [Hp2 Hs2].
  apply (StronglySorted_unique_strong (Std.not_after comp)).
  - intros x y _ _ Hxy Hyx. by apply Htot.
  - by apply sorted_wrt_StronglySorted.
  - by apply sorted_wrt_StronglySorted.
  - by rewrite <-Hp1.
Qed.

Lemma sort_elem_of comp l x : x ∈ Std.sort comp l ↔ x ∈ l.
Proof. unfold Std.sort. by rewrite merge_sort_Permutation. Qed.

Lemma elem_of_unique_from p l x :
  x ∈ p :: Std.unique_from p l ↔ x ∈ p :: l.
Proof.
  revert p. induction l as [|y l IH]; intros p; simpl; [done|].
  destruct (decide (y = p)) as [->|Hne].
  - rewrite IH, !elem_of_cons. tauto.
  - rewrite (elem_of_cons (y :: _)), IH, !elem_of_cons. tauto.
Qed.

Lemma elem_of_unique l x : x ∈ Std.unique l ↔ x ∈ l.
Proof. destruct l as [|p l]; [done|]. apply elem_of_unique_from. Qed.

Lemma unique_from_increasing comp p l :
  Std.strict_weak_order comp →
  (∀ x y, comp x y = false → comp y x = false → x = y) →
  StronglySorted (Std.not_after comp) (p :: l) →
  StronglySorted (λ x y, comp x y = true) (p :: Std.unique_from p l).
Proof.
  intros Hswo Htot. revert p.
  induction l as [|x l IH]; intros p Hs; simpl.
  { repeat constructor. }
  apply StronglySorted_cons in Hs as [Hp Hs].
  destruct (decide (x = p)) as [->|Hne]; [by apply IH|].
  specialize (IH x Hs). apply StronglySorted_cons.
  split; [|done].
  assert (comp p x = true) as Hpx.
  { destruct (comp p x) eqn:Hpx; [done|]. destruct Hne.
    symmetry. apply Htot; [done|]. by inv Hp. }
  constructor; [done|].
  apply StronglySorted_cons in IH as [Hx _].
  eapply Forall_impl; [exact Hx|]. intros y Hxy. simpl in *.
  by apply (Std.swo_trans _ Hswo p x y).
Qed.

(** After a sort under a total order, [unique] leaves a strictly
    increasing range. *)
Lemma unique_sort_increasing comp l :
  Std.strict_weak_order comp →
  (∀ x y, comp x y = false → comp y x = false → x = y) →
  StronglySorted (λ x y, comp x y = true) (Std.unique (Std.sort comp l)).
Proof.
  intros Hswo Htot.
  destruct (sort_sort_result comp l Hswo) as [_ Hs].
  apply sorted_wrt_StronglySorted in Hs.
  destruct (Std.sort comp l) as [|p s]; [constructor|].
  by apply unique_from_increasing.
Qed.

Lemma increasing_NoDup comp l :
  (∀ x, comp x x = false) →
  StronglySorted (λ x y, comp x y = true) l → NoDup l.
Proof.
  intros Hirr. induction 1 as [|x l _ IH Hx]; constructor; [|done].
  intros Hin. eapply Forall_forall in Hx; [|exact Hin]. simpl in Hx.
  by rewrite Hirr in Hx.
Qed.

Lemma unique_sort_NoDup comp l :
  Std.strict_weak_order comp →
  (∀ x y, comp x y = false → comp y x = false → x = y) →
  NoDup (Std.unique (Std.sort comp l)).
Proof.
  intros Hswo Htot. eapply increasing_NoDup; [apply (Std.swo_irrefl _ Hswo)|].
  by apply unique_sort_increasing.
Qed.

Lemma elem_of_unique_sort comp l x : x ∈ Std.unique (Std.sort comp l) ↔ x ∈ l.
Proof. by rewrite elem_of_unique, sort_elem_of. Qed.

(** For an associative operation the grouping by four is invisible. *)
Lemma reduce_foldl (op : A → A → A) l init :
  (∀ a b c, op (op a b) c = op a (op b c)) →
  Std.reduce op l init = foldl op init l.
Proof.
  intros Hassoc. remember (length l) as n eqn:Hn.
  revert l init Hn. induction n as [n IH] using lt_wf_ind. intros l init Hn.
  destruct l as [|x0 [|x1 [|x2 [|x3 rest]]]]; try reflexivity.
  cbn [Std.reduce foldl]. rewrite (IH (length rest)); [|simpl in Hn; lia|done].
  f_equal. by rewrite !Hassoc.
Qed.

End std_facts.

(** ** The orders the program sorts by *)

Lemma code_inj a b : code a = code b → a = b.
Proof.
  unfold code. intros Hab. apply N2Z.inj in Hab.
  by rewrite <-(ascii_N_embedding a), <-(ascii_N_embedding b), Hab.
Qed.

Lemma char_less_swo : Std.strict_weak_order char_less.
Proof.
  unfold char_less. split; intros *; rewrite ?bool_decide_eq_true, ?bool_decide_eq_false; lia.
Qed.

Lemma char_less_total a b : char_less a b = false → char_less b a = false → a = b.
Proof.
  unfold char_less. rewrite !bool_decide_eq_false. intros. apply code_inj. lia.
Qed.

Lemma sv_compare_eq a b : sv_compare a b = Eq ↔ a = b.
Proof.
  revert b. induction a as [|x a IH]; intros [|y b]; simpl; try done.
  destruct (Z.compare_spec (code x) (code y)) as [Hxy|Hxy|Hxy].
  - apply code_inj in Hxy as ->. rewrite IH. split; congruence.
  - split; [done|]. intros [= -> _]. lia.
  - split; [done|]. intros [= -> _]. lia.
Qed.

Lemma sv_compare_antisym a b : sv_compare b a = CompOpp (sv_compare a b).
Proof.
  revert b. induction a as [|x a IH]; intros [|y b]; simpl; try done.
  rewrite (Z.compare_antisym (code x) (code y)).
  destruct (code x ?= code y); simpl; auto.
Qed.

Lemma sv_compare_lt_trans a b c :
  sv_compare a b = Lt → sv_compare b c = Lt → sv_compare a c = Lt.
Proof.
  revert b c. induction a as [|x a IH]; intros [|y b] [|z c]; simpl; try done.
  destruct (Z.compare_spec (code x) (code y)) as [Hxy|Hxy|Hxy]; [|clear IH|done];
    destruct (Z.compare_spec (code y) (code z)) as [Hyz|Hyz|Hyz]; try done; intros Hab Hbc.
  - rewrite Hxy, Hyz, Z.compare_refl. eauto.
  - rewrite Hxy. by apply Z.compare_lt_iff in Hyz as ->.
  - rewrite <-Hyz. by apply Z.compare_lt_iff in Hxy as ->.
  - assert (code x < code z) as ->%Z.compare_lt_iff by lia. done.
Qed.

Lemma sv_less_total a b : sv_less a b = false → sv_less b a = false → a = b.
Proof.
  unfold sv_less. rewrite (sv_compare_antisym a b). intros Hab Hba.
  apply sv_compare_eq. by destruct (sv_compare a b).
Qed.

Lemma sv_less_swo : Std.strict_weak_order sv_less.
Proof.
  split.
  - intros x. unfold sv_less. by rewrite (proj2 (sv_compare_eq x x) eq_refl).
  - intros x y z. unfold sv_less.
    destruct (sv_compare x y) eqn:Hxy; try done.
    destruct (sv_compare y z) eqn:Hyz; try done.
    by rewrite (sv_compare_lt_trans x y z).
  - intros x y z Hxy Hyx Hyz Hzy.
    rewrite (sv_less_total x y Hxy Hyx). done.
Qed.

(** Sorting chars, or string views, has one possible result: the one
    [Std.sort] computes. *)
Lemma sort_char_less_determined w out :
  Std.sort_result char_less w out → out = Std.sort char_less w.
Proof.
  intros Hout. apply (sort_result_unique char_less w); [apply char_less_total|done|].
  apply sort_sort_result, char_less_swo.
Qed.

Lemma sort_sv_less_determined l out :
  Std.sort_result sv_less l out → out = Std.sort sv_less l.
Proof.
  intros Hout. apply (sort_result_unique sv_less l); [apply sv_less_total|done|].
  apply sort_sort_result, sv_less_swo.
Qed.

(** ** [score] *)

Lemma add_letter_score_weight table c value :
  add_letter_score table c value = value + add_letter_score table c 0.
Proof.
  induction table as [|e table IH]; simpl; [lia|].
  destruct (contains (ls_letters e) c); [lia|done].
Qed.

Lemma sum_weights_cons c letters :
  sum_weights (c :: letters) = weight_of c + sum_weights letters.
Proof. reflexivity. Qed.

Lemma sum_weights_foldl letters value :
  foldl (λ value c, add_letter_score letter_scores c value) value letters
  = value + sum_weights letters.
Proof.
  revert value. induction letters as [|c letters IH]; intros value.
  - cbn. lia.
  - cbn [foldl]. rewrite IH, sum_weights_cons, (add_letter_score_weight _ c value).
    unfold weight_of. lia.
Qed.

Lemma sum_weights_Permutation l1 l2 : l1 ≡ₚ l2 → sum_weights l1 = sum_weights l2.
Proof.
  induction 1; rewrite ?sum_weights_cons; [done|lia..].
Qed.

Lemma distinct_letters_NoDup w : NoDup (distinct_letters w).
Proof. apply unique_sort_NoDup; [apply char_less_swo|apply char_less_total]. Qed.

Lemma elem_of_distinct_letters w c : c ∈ distinct_letters w ↔ c ∈ w.
Proof. apply elem_of_unique_sort. Qed.

Lemma score_sum_weights w : score w = sum_weights (distinct_letters w).
Proof. unfold score. rewrite sum_weights_foldl. unfold distinct_letters. lia. Qed.

Lemma score_enumeration w ds :
  NoDup ds → (∀ c, c ∈ ds ↔ c ∈ w) → score w = sum_weights ds.
Proof.
  intros Hnd Hds. rewrite score_sum_weights. apply sum_weights_Permutation.
  apply NoDup_Permutation; [apply distinct_letters_NoDup|done|].
  intros c. by rewrite elem_of_distinct_letters, Hds.
Qed.

Lemma score_same_letters w1 w2 : (∀ c, c ∈ w1 ↔ c ∈ w2) → score w1 = score w2.
Proof.
  intros Hsame. rewrite (score_sum_weights w2).
  apply score_enumeration; [apply distinct_letters_NoDup|].
  intros c. by rewrite elem_of_distinct_letters, Hsame.
Qed.

Lemma weight_of_cases c : 0 ≤ weight_of c ∧ (weight_of c = 0 ∨ c ∈ alphabet).
Proof.
  apply (bool_decide_unpack _).
  destruct c as [[] [] [] [] [] [] [] []]; by vm_compute.
Qed.

Lemma sum_weights_submseteq l1 l2 : l1 ⊆+ l2 → sum_weights l1 ≤ sum_weights l2.
Proof.
  induction 1 as [|x l1 l2 _ IH|x y l|x l1 l2 _ IH|l1 l2 l3 _ IH1 _ IH2];
    rewrite ?sum_weights_cons; try lia.
  pose proof (weight_of_cases x). lia.
Qed.

Lemma sum_weights_filter_alphabet l :
  sum_weights (filter (λ c, c ∈ alphabet) l) = sum_weights l.
Proof.
  induction l as [|c l IH]; [done|].
  rewrite filter_cons. destruct (decide (c ∈ alphabet)) as [Hc|Hc];
    rewrite !sum_weights_cons, IH; [done|].
  destruct (weight_of_cases c) as [_ [->|]]; [lia|done].
Qed.

(** The [int] in which [score] adds the weights up never overflows: the sum
    stays below the total of the table. *)
Lemma score_bounds w : 0 ≤ score w ≤ 106400.
Proof.
  rewrite score_sum_weights. split.
  - induction (distinct_letters w) as [|c l IH]; [done|].
    rewrite sum_weights_cons. pose proof (weight_of_cases c). lia.
  - rewrite <-sum_weights_filter_alphabet.
    change 106400 with (sum_weights alphabet). apply sum_weights_submseteq.
    apply NoDup_submseteq.
    + apply NoDup_filter, distinct_letters_NoDup.
    + by intros c [? _]%list_elem_of_filter.
Qed.

(** A letter weighs what its group in the table says: no letter is in two
    groups. *)
Lemma weight_of_group e c :
  e ∈ letter_scores → c ∈ ls_letters e → weight_of c = ls_score e.
Proof.
  assert (Forall (λ e, Forall (λ c, weight_of c = ls_score e) (ls_letters e))
            letter_scores) as Hall
    by (apply (bool_decide_unpack _); by vm_compute).
  intros He Hc. eapply Forall_forall in Hall; [|exact He].
  by eapply Forall_forall in Hall.
Qed.

Lemma weight_of_no_group c : c ∉ alphabet → weight_of c = 0.
Proof. intros Hc. by destruct (weight_of_cases c) as [_ [?|?]]. Qed.

(** C7: [score] is the sum of the table's weights over the distinct letters
    of the word, whatever list enumerates them once each.  So two words with
    the same letters have the same score: a permutation of the chars or a
    repeated letter changes nothing, as for "aabbc" and "abc". *)
Theorem score_distinct_letters :
  (∀ e c, e ∈ letter_scores → c ∈ ls_letters e → weight_of c = ls_score e) ∧
  (∀ c, c ∉ alphabet → weight_of c = 0) ∧
  (∀ w ds, NoDup ds → (∀ c, c ∈ ds ↔ c ∈ w) → score w = sum_weights ds) ∧
  (∀ w1 w2, (∀ c, c ∈ w1 ↔ c ∈ w2) → score w1 = score w2) ∧
  (∀ w1 w2, w1 ≡ₚ w2 → score w1 = score w2) ∧
  (∀ w c, c ∈ w → score (c :: w) = score w) ∧
  score (str "aabbc") = score (str "abc").
Proof.
  split; [exact weight_of_group|]. split; [exact weight_of_no_group|].
  split; [exact score_enumeration|]. split; [exact score_same_letters|].
  split; [|split].
  - intros w1 w2 Hp. apply score_same_letters. intros c. by rewrite Hp.
  - intros w c Hc. apply score_same_letters. intros d. rewrite elem_of_cons.
    split; [intros [->|]; done|auto].
  - reflexivity.
Qed.

Lemma score_distinct_letters_witness :
  score (str "three") = sum_weights (str "ehrt") ∧
  score (str "three") = 12000 + 6400 + 6200 + 9000.
Proof.
  split; [|reflexivity].
  apply (proj1 (proj2 (proj2 score_distinct_letters)) (str "three") (str "ehrt")).
  - by apply (bool_decide_unpack _).
  - intros c. apply (bool_decide_unpack _).
    destruct c as [[] [] [] [] [] [] [] []]; by vm_compute.
Defined.

(** ** [best_word] *)

Lemma better_assoc a b c : better (better a b) c = better a (better b c).
Proof.
  unfold better. repeat case_bool_decide; try done; lia.
Qed.

Lemma last_of_max_score_bound words w v :
  last_of_max_score words w → v ∈ words → score v ≤ score w.
Proof.
  intros (before & after & -> & Hb & Ha) Hv.
  apply elem_of_app in Hv as [Hv|Hv].
  - by eapply Forall_forall in Hb.
  - apply elem_of_cons in Hv as [->|Hv]; [lia|].
    eapply Forall_forall in Ha; [|exact Hv]. simpl in Ha. lia.
Qed.

Lemma foldl_better_last front rest :
  last_of_max_score (front :: rest) (foldl better front rest).
Proof.
  induction rest as [|x rest IH] using rev_ind.
  { exists [], []. repeat split; constructor. }
  rewrite foldl_snoc. set (m := foldl better front rest) in *.
  unfold better. case_bool_decide as Hgt.
  - destruct IH as (before & after & Heq & Hb & Ha).
    exists before, (after ++ [x]). split; [|split; [done|]].
    + by rewrite app_comm_cons, Heq, <-app_assoc.
    + apply Forall_app. split; [done|]. constructor; [lia|constructor].
  - exists (front :: rest), []. split; [done|]. split; [|constructor].
    apply Forall_forall. intros v Hv.
    pose proof (last_of_max_score_bound _ _ v IH Hv). lia.
Qed.

Lemma best_word_foldl front rest :
  best_word (front :: rest) = Some (foldl better front rest).
Proof. simpl. f_equal. apply reduce_foldl, better_assoc. Qed.

(** C2, as amended: for a corpus that is not empty [best_word] is a word of
    the corpus whose score no word of the whole corpus exceeds, and of the
    words with that score it is the last in corpus order. *)
Theorem best_word_last_of_max (words : list word) :
  words ≠ [] →
  ∃ w, best_word words = Some w ∧ w ∈ words ∧
       (∀ v, v ∈ words → score v ≤ score w) ∧
       last_of_max_score words w.
Proof.
  destruct words as [|front rest]; [done|]. intros _.
  exists (foldl better front rest). rewrite best_word_foldl.
  pose proof (foldl_better_last front rest) as Hlast.
  split; [done|]. split; [|split; [|done]].
  - destruct Hlast as (before & after & -> & _). set_solver.
  - intros v. by apply last_of_max_score_bound.
Qed.

Lemma best_word_last_of_max_witness :
  [str "angel"; str "glean"; str "fuzzy"] ≠ [] ∧
  ∃ w, best_word [str "angel"; str "glean"; str "fuzzy"] = Some w ∧
       w ∈ [str "angel"; str "glean"; str "fuzzy"] ∧
       (∀ v, v ∈ [str "angel"; str "glean"; str "fuzzy"] → score v ≤ score w) ∧
       last_of_max_score [str "angel"; str "glean"; str "fuzzy"] w.
Proof.
  split; [discriminate|].
  apply (best_word_last_of_max [str "angel"; str "glean"; str "fuzzy"]). discriminate.
Defined.

(** C2 fails as stated: "angel" and "glean" tie for the best score, and the
    later one is returned. *)
Lemma best_word_tie_not_first :
  score (str "angel") = score (str "glean") ∧
  best_word [str "angel"; str "glean"; str "fuzzy"] = Some (str "glean") ∧
  first_of_max_score [str "angel"; str "glean"; str "fuzzy"] (str "angel") ∧
  ¬ first_of_max_score [str "angel"; str "glean"; str "fuzzy"] (str "glean").
Proof.
  split; [reflexivity|]. split; [reflexivity|]. split.
  - exists [], [str "glean"; str "fuzzy"]. split; [done|]. split; [constructor|].
    repeat constructor; vm_compute; discriminate.
  - intros (before & after & Heq & Hb & _).
    destruct before as [|b before]; [discriminate|].
    injection Heq as <- _. inv Hb. vm_compute in *. done.
Qed.

(** ** Constraint evaluation and [solve] *)

Lemma contains_true s c : contains s c = true ↔ c ∈ s.
Proof. unfold contains. apply bool_decide_eq_true. Qed.

Lemma contains_false s c : contains s c = false ↔ c ∉ s.
Proof. unfold contains. apply bool_decide_eq_false. Qed.

Lemma word_at_in_range w i : in_range (length w) i → is_Some (word_at w i).
Proof.
  unfold in_range, word_at. intros [Hlo Hhi].
  rewrite (proj2 (Z.leb_le _ _) Hlo), (proj2 (Z.ltb_lt _ _) Hhi). simpl.
  apply lookup_lt_is_Some. lia.
Qed.

Lemma exclude_loop_spec w l excl fail b :
  exclude_loop w l excl fail = Some b →
  (b = false ↔ fail = false ∧ ∀ i, i ∈ excl → word_at w i ≠ Some l).
Proof.
  revert fail. induction excl as [|i excl IH]; intros fail; simpl.
  { intros [= <-]. split; [|by intros [? _]]. intros ->. split; [done|]. by intros ? ?%elem_of_nil. }
  destruct (word_at w i) as [c|] eqn:Hc; [|done]. simpl.
  intros Hb. apply IH in Hb. rewrite Hb. clear Hb IH.
  destruct (decide (c = l)) as [->|Hne].
  - split; [by intros [? _]|]. intros [_ Hall]. destruct (Hall i); [left|done].
  - split.
    + intros [-> Hall]. split; [done|]. intros j [->|Hj]%elem_of_cons; [congruence|auto].
    + intros [-> Hall]. split; [done|]. intros j Hj. apply Hall. by right.
Qed.

Lemma exclude_loop_in_range w l excl fail :
  Forall (in_range (length w)) excl → is_Some (exclude_loop w l excl fail).
Proof.
  intros Hexcl. revert fail. induction Hexcl as [|i excl Hi _ IH]; intros fail; simpl; [done|].
  destruct (word_at_in_range w i Hi) as [c ->]. simpl. apply IH.
Qed.

Lemma check_constraint_spec w c fail b :
  check_constraint w c fail = Some b →
  (b = false ↔ fail = false ∧ satisfies w c).
Proof.
  unfold check_constraint, satisfies. destruct (kind c).
  - intros [= <-]. destruct (contains w (letter c)) eqn:Hc.
    + apply contains_true in Hc. split; [done|]. by intros [_ []].
    + apply contains_false in Hc. tauto.
  - destruct (contains w (letter c)) eqn:Hc; simpl.
    + apply contains_true in Hc. intros Hb%exclude_loop_spec. rewrite Hb. tauto.
    + apply contains_false in Hc. intros [= <-]. split; [done|]. by intros (_ & ? & _).
  - destruct (position c) as [p|]; [|done]. simpl.
    destruct (word_at w p) as [ch|] eqn:Hch; [|done]. simpl. intros [= <-].
    destruct (decide (ch ≠ letter c)) as [Hne|Heq%dec_stable].
    + split; [done|]. intros [_ (p' & [= <-] & Hp')]. congruence.
    + subst ch. split; [|by intros [? _]]. intros ->. split; [done|]. by exists p.
Qed.

Lemma check_constraint_in_range w c fail :
  constraint_in_range (length w) c → is_Some (check_constraint w c fail).
Proof.
  unfold check_constraint, constraint_in_range. destruct (kind c).
  - done.
  - intros Hexcl. destruct (negb _); [done|]. by apply exclude_loop_in_range.
  - intros (p & -> & Hp). simpl. by destruct (word_at_in_range w p Hp) as [ch ->].
Qed.

Lemma check_constraints_spec w cs fail b :
  check_constraints w cs fail = Some b →
  (b = false ↔ fail = false ∧ Forall (satisfies w) cs).
Proof.
  revert fail. induction cs as [|c cs IH]; intros fail; simpl.
  { intros [= <-]. split; [|by intros [? _]]. by split. }
  destruct (check_constraint w c fail) as [fail'|] eqn:Hc; [|done]. simpl.
  intros Hb. apply IH in Hb. apply check_constraint_spec in Hc.
  rewrite Hb, Hc, Forall_cons. tauto.
Qed.

Lemma check_constraints_in_range w cs fail :
  Forall (constraint_in_range (length w)) cs → is_Some (check_constraints w cs fail).
Proof.
  intros Hcs. revert fail. induction Hcs as [|c cs Hc _ IH]; intros fail; simpl; [done|].
  destruct (check_constraint_in_range w c fail Hc) as [fail' ->]. simpl. apply IH.
Qed.

Lemma solve_loop_spec cs words legal_words out :
  solve_loop cs words legal_words = Some out →
  Forall (λ w, is_Some (word_fails cs w)) words ∧
  out = legal_words ++ filter (kept cs) words.
Proof.
  revert legal_words. induction words as [|w words IH]; intros legal_words; simpl.
  { intros [= <-]. split; [constructor|]. by rewrite app_nil_r. }
  destruct (word_fails cs w) as [fail|] eqn:Hw; [|done]. simpl.
  intros [Hdef ->]%IH. split; [by constructor|].
  rewrite filter_cons. destruct fail.
  - rewrite decide_False; [done|]. unfold kept. by rewrite Hw.
  - rewrite decide_True by done. by rewrite <-app_assoc.
Qed.

Lemma solve_spec cs words out :
  solve cs words = Some out →
  Forall (λ w, is_Some (word_fails cs w)) words ∧ out = filter (kept cs) words.
Proof. apply solve_loop_spec. Qed.

Lemma solve_loop_defined cs words legal_words :
  Forall (λ w, is_Some (word_fails cs w)) words →
  is_Some (solve_loop cs words legal_words).
Proof.
  intros Hdef. revert legal_words.
  induction Hdef as [|w words [fail Hw] _ IH]; intros legal_words; simpl; [done|].
  rewrite Hw. simpl. apply IH.
Qed.

Lemma solve_in_range cs words :
  Forall (λ w, Forall (constraint_in_range (length w)) cs) words →
  is_Some (solve cs words).
Proof.
  intros Hr. apply solve_loop_defined. eapply Forall_impl; [exact Hr|].
  intros w. apply check_constraints_in_range.
Qed.

Lemma solve_defined cs words :
  Forall (λ w, is_Some (word_fails cs w)) words →
  solve cs words = Some (filter (kept cs) words).
Proof.
  intros Hdef. destruct (solve_loop_defined cs words [] Hdef) as [out Hout].
  unfold solve. rewrite Hout. by apply solve_spec in Hout as [_ ->].
Qed.

Lemma solve_no_constraints words : solve [] words = Some words.
Proof.
  rewrite solve_defined.
  - f_equal. induction words as [|w words IH]; [done|].
    rewrite filter_cons, decide_True by done. by rewrite IH.
  - apply Forall_forall. by intros w _.
Qed.

Lemma elem_of_solve cs words out w :
  solve cs words = Some out → w ∈ out ↔ w ∈ words ∧ Forall (satisfies w) cs.
Proof.
  intros [Hdef ->]%solve_spec. rewrite list_elem_of_filter. unfold kept.
  split.
  - intros [Hk Hw]. split; [done|]. apply check_constraints_spec in Hk. by apply Hk.
  - intros [Hw Hsat]. split; [|done].
    eapply Forall_forall in Hdef as [fail Hfail]; [|exact Hw].
    rewrite Hfail. f_equal. apply (check_constraints_spec _ _ _ _ Hfail). done.
Qed.

(** C1: [solve] keeps a word exactly when the word satisfies every
    constraint of the list.  On a word for which the positions of the
    constraints are in range the evaluation is defined; whenever it is
    defined, [fail] is still [false] after the last constraint if and only
    if all constraints are satisfied, and the word is kept in that case
    only. *)
Theorem solve_retains_iff_satisfied (cs : list constraint) :
  (∀ w, Forall (constraint_in_range (length w)) cs → is_Some (word_fails cs w)) ∧
  (∀ w fail, word_fails cs w = Some fail →
     (fail = false ↔ Forall (satisfies w) cs) ∧
     solve cs [w] = Some (if fail then [] else [w])) ∧
  (∀ words out, solve cs words = Some out →
     ∀ w, w ∈ out ↔ w ∈ words ∧ Forall (satisfies w) cs).
Proof.
  split; [|split].
  - intros w. apply check_constraints_in_range.
  - intros w fail Hfail. split.
    + rewrite (check_constraints_spec _ _ _ _ Hfail). tauto.
    + unfold solve. simpl. rewrite Hfail. simpl. by destruct fail.
  - intros words out Hout w. by apply elem_of_solve.
Qed.

Lemma solve_retains_iff_satisfied_witness :
  word_fails main_cs (str "rebel") = Some false ∧
  Forall (satisfies (str "rebel")) main_cs ∧
  solve main_cs [str "rebel"] = Some [str "rebel"].
Proof.
  assert (word_fails main_cs (str "rebel") = Some false) as Hfail by reflexivity.
  destruct (proj1 (proj2 (solve_retains_iff_satisfied main_cs)) _ _ Hfail)
    as [Hiff Hsolve].
  split; [exact Hfail|]. split; [by apply Hiff|exact Hsolve].
Defined.

Lemma indexed_positions_in_range w c :
  constraint_in_range (length w) c →
  Forall (in_range (length w)) (indexed_positions w c).
Proof.
  unfold constraint_in_range, indexed_positions. destruct (kind c).
  - constructor.
  - intros Hexcl. destruct (contains _ _); [done|constructor].
  - intros (p & -> & Hp). by apply Forall_singleton.
Qed.

Lemma word_at_defined w i :
  is_Some (word_at w i) ↔ 0 ≤ i ≤ Z.of_nat (length w).
Proof.
  unfold word_at.
  destruct (Z.leb_spec 0 i), (Z.ltb_spec i (Z.of_nat (length w))); simpl.
  - split; [lia|]. intros _. apply lookup_lt_is_Some. lia.
  - destruct (Z.eqb_spec i (Z.of_nat (length w))).
    + split; [lia|done].
    + split; [by intros [? [=]]|lia].
  - destruct (Z.eqb_spec i (Z.of_nat (length w))); [lia|]. split; [by intros [? [=]]|lia].
  - destruct (Z.eqb_spec i (Z.of_nat (length w))); [lia|]. split; [by intros [? [=]]|lia].
Qed.

Lemma exclude_loop_defined w l excl fail :
  is_Some (exclude_loop w l excl fail) ↔
  Forall (λ i, 0 ≤ i ≤ Z.of_nat (length w)) excl.
Proof.
  revert fail. induction excl as [|i excl IH]; intros fail; simpl.
  { split; [constructor|done]. }
  rewrite Forall_cons, <-word_at_defined.
  destruct (word_at w i) as [c|]; simpl.
  - rewrite IH. split; [by split|tauto].
  - split; [by intros [? [=]]|]. by intros [[? [=]] _].
Qed.

Lemma check_constraint_defined w c fail :
  is_Some (check_constraint w c fail) ↔
  (kind c = perfect → is_Some (position c)) ∧
  Forall (λ i, 0 ≤ i ≤ Z.of_nat (length w)) (indexed_positions w c).
Proof.
  unfold check_constraint, indexed_positions. destruct (kind c).
  - split; [|done]. intros _. split; [done|constructor].
  - destruct (contains w (letter c)); simpl.
    + rewrite exclude_loop_defined. split; [by split|tauto].
    + split; [|done]. intros _. split; [done|constructor].
  - destruct (position c) as [p|]; simpl.
    + rewrite Forall_singleton, <-word_at_defined.
      destruct (word_at w p); simpl; split; try done. by intros [_ ?].
    + split; [by intros [? [=]]|]. intros [Hp _]. by destruct (Hp eq_refl) as [? [=]].
Qed.

(** C4, as amended: a constraint is built without any check, and its
    evaluation indexes the word without one.  When the positions of the
    constraint are positions of the word, every index read is in range and
    the evaluation is defined.  In general it is defined exactly when a
    [perfect] constraint has its position and no index read is beyond the
    length of the word; the index equal to the length reads the terminator. *)
Theorem in_range_constraint_reads_in_range (w : word) (c : constraint) (fail : bool) :
  (constraint_in_range (length w) c →
     Forall (in_range (length w)) (indexed_positions w c) ∧
     is_Some (check_constraint w c fail)) ∧
  (is_Some (check_constraint w c fail) ↔
     (kind c = perfect → is_Some (position c)) ∧
     Forall (λ i, 0 ≤ i ≤ Z.of_nat (length w)) (indexed_positions w c)).
Proof.
  split; [|apply check_constraint_defined].
  intros Hc. split; [by apply indexed_positions_in_range|by apply check_constraint_in_range].
Qed.

Lemma in_range_constraint_reads_in_range_witness :
  constraint_in_range 5 (Constraint present "e" None [0; 2; 4]) ∧
  Forall (in_range 5)
    (indexed_positions (str "rebel") (Constraint present "e" None [0; 2; 4])) ∧
  is_Some (check_constraint (str "rebel") (Constraint present "e" None [0; 2; 4]) false).
Proof.
  assert (constraint_in_range 5 (Constraint present "e" None [0; 2; 4])) as Hc.
  { unfold constraint_in_range, in_range. simpl. repeat constructor; lia. }
  split; [exact Hc|].
  exact (proj1 (in_range_constraint_reads_in_range (str "rebel")
                  (Constraint present "e" None [0; 2; 4]) false) Hc).
Defined.

(** C4 fails as stated: constraints with a position outside the word are
    built and evaluated like any other.  Position 5 of "hello" is read
    without a report (the word is dropped); position 9 is read too, which is
    undefined. *)
Lemma out_of_range_position_unchecked :
  ¬ constraint_in_range 5 (Constraint perfect "l" (Some 5) []) ∧
  indexed_positions (str "hello") (Constraint perfect "l" (Some 5) []) = [5] ∧
  ¬ in_range (length (str "hello")) 5 ∧
  solve [Constraint perfect "l" (Some 5) []] [str "hello"] = Some [] ∧
  ¬ constraint_in_range 5 (Constraint present "h" None [9]) ∧
  indexed_positions (str "hello") (Constraint present "h" None [9]) = [9] ∧
  ¬ in_range (length (str "hello")) 9 ∧
  solve [Constraint present "h" None [9]] [str "hello"] = None.
Proof.
  unfold constraint_in_range, in_range. simpl.
  repeat split; try reflexivity; try lia.
  - intros (p & [= <-] & Hp). lia.
  - intros Hf. inv Hf. lia.
Qed.

Lemma filter_eq_filter (P : word → Prop) `{∀ v, Decision (P v)} (w : word) (l : list word) :
  P w → filter (λ v, v = w) (filter P l) = filter (λ v, v = w) l.
Proof.
  intros Hw. induction l as [|x l IH]; [done|].
  rewrite !filter_cons. destruct (decide (P x)) as [Hx|Hx].
  - rewrite filter_cons. by rewrite IH.
  - rewrite IH. rewrite decide_False; [done|]. by intros ->.
Qed.

(** C10: what [solve] returns is a sublist of [words]: the words kept stand
    in their former order, none is new, and a word that is kept is kept as
    many times as it stands in [words]. *)
Theorem solve_order_preserving_sublist (cs : list constraint) (words : list word) :
  (Forall (λ w, Forall (constraint_in_range (length w)) cs) words →
     is_Some (solve cs words)) ∧
  (∀ out, solve cs words = Some out →
     out `sublist_of` words ∧
     (∀ w, w ∈ out → w ∈ words) ∧
     (∀ w, w ∈ out → occurrences w out = occurrences w words)).
Proof.
  split; [apply solve_in_range|]. intros out [_ ->]%solve_spec.
  split; [apply sublist_filter|]. split.
  - intros w. rewrite list_elem_of_filter. tauto.
  - intros w [Hw _]%list_elem_of_filter. unfold occurrences.
    by rewrite filter_eq_filter.
Qed.

Lemma solve_order_preserving_sublist_witness :
  solve main_cs (str <$> ["eagle"; "rebel"; "bezel"; "rebel"]%string)
  = Some (str <$> ["rebel"; "bezel"; "rebel"]%string) ∧
  (str <$> ["rebel"; "bezel"; "rebel"]%string)
    `sublist_of` (str <$> ["eagle"; "rebel"; "bezel"; "rebel"]%string) ∧
  occurrences (str "rebel") (str <$> ["rebel"; "bezel"; "rebel"]%string) = 2%nat.
Proof.
  assert (solve main_cs (str <$> ["eagle"; "rebel"; "bezel"; "rebel"]%string)
          = Some (str <$> ["rebel"; "bezel"; "rebel"]%string)) as Hsolve by reflexivity.
  destruct (proj2 (solve_order_preserving_sublist main_cs _) _ Hsolve)
    as (Hsub & _ & Hocc).
  split; [exact Hsolve|]. split; [exact Hsub|]. rewrite Hocc; [reflexivity|]. by left.
Defined.

Lemma main_cs_in_range : Forall (constraint_in_range 5) main_cs.
Proof.
  unfold constraint_in_range, in_range.
  repeat constructor; simpl; try lia. exists 4. split; [done|lia].
Qed.

(** [solve] is defined on the words [validate] accepted. *)
Lemma solve_main_cs_defined words :
  Forall (λ w, length w = 5%nat) words → is_Some (solve main_cs words).
Proof.
  intros Hlen. apply solve_in_range. eapply Forall_impl; [exact Hlen|].
  intros w ->. apply main_cs_in_range.
Qed.

Example solve_main_cs_sample :
  solve main_cs (str <$> ["eagle"; "uncle"; "rebel"; "bezel"; "angle"; "rebel"]%string)
  = Some (str <$> ["rebel"; "bezel"; "rebel"]%string).
Proof. reflexivity. Qed.

(** ** The dictionary prune, the sort and [unique] *)

Lemma elem_of_prune dict l w : w ∈ prune dict l ↔ w ∈ l ∧ w ∈ dict.
Proof.
  induction l as [|x l IH]; simpl.
  { rewrite elem_of_nil. tauto. }
  case_bool_decide as Hx; rewrite ?elem_of_cons, IH; [|split; [tauto|]].
  - split; [intros [->|]; tauto|tauto].
  - intros [[->|] ?]; tauto.
Qed.

Lemma elem_of_make_dict dictionary_words w :
  w ∈ make_dict dictionary_words ↔ w ∈ dictionary_words.
Proof. unfold make_dict. apply elem_of_list_to_set. Qed.

Lemma occurrences_not_elem_of (w : word) l : w ∉ l → occurrences w l = 0%nat.
Proof.
  unfold occurrences. induction l as [|x l IH]; [done|].
  rewrite not_elem_of_cons, filter_cons. intros [Hne Hw].
  rewrite decide_False by done. by apply IH.
Qed.

Lemma NoDup_occurrences (w : word) l : NoDup l → w ∈ l → occurrences w l = 1%nat.
Proof.
  induction 1 as [|x l Hx Hnd IH]; [by intros ?%elem_of_nil|].
  intros [->|Hw]%elem_of_cons.
  - pose proof (occurrences_not_elem_of x l Hx) as H0. unfold occurrences in *.
    by rewrite filter_cons, decide_True, length_cons, H0.
  - specialize (IH Hw). unfold occurrences in *.
    rewrite filter_cons, decide_False; [done|]. by intros ->.
Qed.

Lemma filter_candidates_spec cs words dictionary_words out :
  filter_candidates cs words dictionary_words = Some out →
  StronglySorted (λ a b, sv_less a b = true) out ∧
  NoDup out ∧
  ∀ w, w ∈ out ↔ w ∈ words ∧ Forall (satisfies w) cs ∧ w ∈ dictionary_words.
Proof.
  unfold filter_candidates. destruct (solve cs words) as [legal|] eqn:Hsolve; [|done].
  simpl. intros [= <-]. split; [|split].
  - apply unique_sort_increasing; [apply sv_less_swo|apply sv_less_total].
  - apply unique_sort_NoDup; [apply sv_less_swo|apply sv_less_total].
  - intros w. rewrite elem_of_unique_sort, elem_of_prune, elem_of_make_dict.
    rewrite (elem_of_solve _ _ _ _ Hsolve). tauto.
Qed.

Lemma filter_candidates_defined cs words dictionary_words :
  is_Some (solve cs words) → is_Some (filter_candidates cs words dictionary_words).
Proof. unfold filter_candidates. by intros [legal ->]. Qed.

(** C6: the candidate list, once pruned, sorted and made unique, increases
    strictly in the lexicographic order: it is sorted and holds no word
    twice.  Its words are the words of the corpus that satisfy the
    constraints and are in the dictionary, each of them once. *)
Theorem filter_candidates_sorted_unique
  (cs : list constraint) (words dictionary_words : list word) :
  (Forall (λ w, Forall (constraint_in_range (length w)) cs) words →
     is_Some (filter_candidates cs words dictionary_words)) ∧
  (∀ out, filter_candidates cs words dictionary_words = Some out →
     StronglySorted (λ a b, sv_less a b = true) out ∧
     NoDup out ∧
     (∀ w, w ∈ out ↔ w ∈ words ∧ Forall (satisfies w) cs ∧ w ∈ dictionary_words) ∧
     (∀ w, w ∈ words → Forall (satisfies w) cs → w ∈ dictionary_words →
           occurrences w out = 1%nat)).
Proof.
  split.
  - intros Hr. by apply filter_candidates_defined, solve_in_range.
  - intros out (Hsorted & Hnd & Hin)%filter_candidates_spec.
    split; [done|]. split; [done|]. split; [done|].
    intros w ???. apply NoDup_occurrences; [done|]. by apply Hin.
Qed.

Lemma filter_candidates_sorted_unique_witness :
  filter_candidates main_cs
    (str <$> ["rebel"; "bezel"; "xexxl"; "bezel"; "eagle"]%string)
    (str <$> ["bezel"; "eagle"; "rebel"]%string)
  = Some (str <$> ["bezel"; "rebel"]%string) ∧
  StronglySorted (λ a b, sv_less a b = true) (str <$> ["bezel"; "rebel"]%string) ∧
  NoDup (str <$> ["bezel"; "rebel"]%string).
Proof.
  assert (filter_candidates main_cs
            (str <$> ["rebel"; "bezel"; "xexxl"; "bezel"; "eagle"]%string)
            (str <$> ["bezel"; "eagle"; "rebel"]%string)
          = Some (str <$> ["bezel"; "rebel"]%string)) as Hf by (by vm_compute).
  destruct (proj2 (filter_candidates_sorted_unique _ _ _) _ Hf) as (Hs & Hnd & _).
  split; [exact Hf|]. split; [exact Hs|exact Hnd].
Defined.

(** C8: constraints only remove candidates.  With no constraint [solve]
    returns the word list as it is, and the candidates under any list of
    constraints are among, and no more than, the candidates under none. *)
Theorem filter_candidates_monotone
  (cs : list constraint) (words dictionary_words : list word) :
  solve [] words = Some words ∧
  (Forall (λ w, Forall (constraint_in_range (length w)) cs) words →
     is_Some (filter_candidates cs words dictionary_words)) ∧
  ∃ all, filter_candidates [] words dictionary_words = Some all ∧
         ∀ out, filter_candidates cs words dictionary_words = Some out →
                (length out ≤ length all)%nat ∧ out ⊆ all.
Proof.
  split; [apply solve_no_constraints|]. split.
  { intros Hr. by apply filter_candidates_defined, solve_in_range. }
  destruct (filter_candidates_defined [] words dictionary_words) as [all Hall].
  { rewrite solve_no_constraints. done. }
  exists all. split; [done|]. intros out Hout.
  apply filter_candidates_spec in Hall as (_ & _ & Hina).
  apply filter_candidates_spec in Hout as (_ & Hnd & Hino).
  assert (out ⊆ all) as Hsub.
  { intros w [? [_ ?]]%Hino. apply Hina. split; [done|]. split; [constructor|done]. }
  split; [|done]. apply submseteq_length. by apply NoDup_submseteq.
Qed.

Lemma filter_candidates_monotone_witness :
  filter_candidates main_cs
    (str <$> ["rebel"; "bezel"; "xexxl"; "bezel"; "eagle"]%string)
    (str <$> ["bezel"; "eagle"; "rebel"]%string)
  = Some (str <$> ["bezel"; "rebel"]%string) ∧
  filter_candidates []
    (str <$> ["rebel"; "bezel"; "xexxl"; "bezel"; "eagle"]%string)
    (str <$> ["bezel"; "eagle"; "rebel"]%string)
  = Some (str <$> ["bezel"; "eagle"; "rebel"]%string) ∧
  (length (str <$> ["bezel"; "rebel"]%string)
   ≤ length (str <$> ["bezel"; "eagle"; "rebel"]%string))%nat.
Proof.
  assert (filter_candidates main_cs
            (str <$> ["rebel"; "bezel"; "xexxl"; "bezel"; "eagle"]%string)
            (str <$> ["bezel"; "eagle"; "rebel"]%string)
          = Some (str <$> ["bezel"; "rebel"]%string)) as Hf by (by vm_compute).
  destruct (proj2 (proj2 (filter_candidates_monotone main_cs
              (str <$> ["rebel"; "bezel"; "xexxl"; "bezel"; "eagle"]%string)
              (str <$> ["bezel"; "eagle"; "rebel"]%string)))) as (all & Hall & Hle).
  assert (all = str <$> ["bezel"; "eagle"; "rebel"]%string) as ->.
  { vm_compute in Hall. by injection Hall as <-. }
  split; [exact Hf|]. split; [exact Hall|]. exact (proj1 (Hle _ Hf)).
Defined.

(** ** The sort by letter frequency *)

Lemma emplace_lookup (k : word) (v : Z) (m : gmap word Z) (j : word) :
  emplace k v m !! j =
  match m !! j with
  | Some u => Some u
  | None => if decide (k = j) then Some v else None
  end.
Proof.
  unfold emplace. destruct (m !! k) as [u|] eqn:Hk.
  - destruct (m !! j) eqn:Hj; [done|]. rewrite decide_False; [done|]. congruence.
  - rewrite lookup_insert. destruct (decide (k = j)) as [->|]; [by rewrite Hk|].
    by destruct (m !! j).
Qed.

Lemma foldl_emplace_lookup (m : gmap word Z) (l : list word) (k : word) :
  foldl (λ m w, emplace w (score w) m) m l !! k =
  match m !! k with
  | Some u => Some u
  | None => if decide (k ∈ l) then Some (score k) else None
  end.
Proof.
  revert m. induction l as [|w l IH]; intros m; cbn [foldl].
  { destruct (m !! k); [done|]. by rewrite decide_False by apply not_elem_of_nil. }
  rewrite IH, emplace_lookup. destruct (m !! k) as [u|]; [done|].
  destruct (decide (w = k)) as [->|Hne].
  - by rewrite decide_True by left.
  - destruct (decide (k ∈ l)) as [Hin|Hnin].
    + by rewrite decide_True by by right.
    + rewrite decide_False; [done|]. intros [->|?]%elem_of_cons; done.
Qed.

Lemma map_index_letter_freq_words (l : list word) (w : word) :
  w ∈ l → map_index (letter_freq_words l) w = score w.
Proof.
  intros Hw. unfold map_index, letter_freq_words.
  by rewrite foldl_emplace_lookup, lookup_empty, decide_True.
Qed.

Lemma by_letter_freq_swo m : Std.strict_weak_order (by_letter_freq m).
Proof.
  unfold by_letter_freq.
  split; intros *; rewrite ?bool_decide_eq_true, ?bool_decide_eq_false; lia.
Qed.

Lemma rank_by_letter_score_exists legal_words :
  ∃ out, rank_by_letter_score legal_words out.
Proof.
  exists (Std.sort (by_letter_freq (letter_freq_words legal_words)) legal_words).
  apply sort_sort_result, by_letter_freq_swo.
Qed.

Lemma rank_by_letter_score_non_increasing legal_words out :
  rank_by_letter_score legal_words out → non_increasing score out.
Proof.
  intros [Hperm Hsorted] i j x y Hij Hx Hy.
  specialize (Hsorted i j x y Hij Hx Hy). unfold by_letter_freq in Hsorted.
  apply bool_decide_eq_false in Hsorted.
  rewrite !map_index_letter_freq_words in Hsorted;
    [lia|rewrite Hperm; by eapply list_elem_of_lookup_2..].
Qed.

(** C3, as amended: the comparator of the sort by letter frequency is a
    strict weak order, so the sort has a result; every result is a
    permutation of the candidates along which the score never goes up.  The
    order of the words of one score is not determined. *)
Theorem rank_by_letter_score_sorted_permutation (legal_words : list word) :
  Std.strict_weak_order (by_letter_freq (letter_freq_words legal_words)) ∧
  (∃ out, rank_by_letter_score legal_words out) ∧
  (∀ out, rank_by_letter_score legal_words out →
     legal_words ≡ₚ out ∧ non_increasing score out).
Proof.
  split; [apply by_letter_freq_swo|]. split; [apply rank_by_letter_score_exists|].
  intros out Hout. split; [apply Hout|by apply (rank_by_letter_score_non_increasing legal_words)].
Qed.

(** [tie_ranked] is a result of sorting [tie_candidates]. *)
Lemma tie_ranked_sort_result : rank_by_letter_score tie_candidates tie_ranked.
Proof.
  split.
  - apply (bool_decide_unpack _). by vm_compute.
  - apply sorted_wrt_StronglySorted. apply (bool_decide_unpack _). by vm_compute.
Qed.

Lemma rank_by_letter_score_sorted_permutation_witness :
  rank_by_letter_score tie_candidates tie_ranked ∧
  tie_candidates ≡ₚ tie_ranked ∧ non_increasing score tie_ranked.
Proof.
  split; [exact tie_ranked_sort_result|].
  exact (proj2 (proj2 (rank_by_letter_score_sorted_permutation tie_candidates))
           tie_ranked tie_ranked_sort_result).
Defined.

(** C3 fails as stated: the sort is not stable.  The seventeen candidates,
    which the filter returns as they are, have one score; [tie_ranked] is a
    result of the sort, and not their order. *)
Lemma rank_by_letter_score_not_stable :
  filter_candidates [] tie_candidates tie_candidates = Some tie_candidates ∧
  rank_by_letter_score tie_candidates tie_ranked ∧
  ¬ stable_wrt score tie_candidates tie_ranked.
Proof.
  split; [by vm_compute|]. split; [exact tie_ranked_sort_result|].
  intros Hstable. specialize (Hstable 43200). vm_compute in Hstable. discriminate.
Qed.

(** * More of the program *)

(** ** [validate] and the loaders *)

Lemma isalpha_tolower_islower c : isalpha c = true → islower (tolower c) = true.
Proof. destruct c as [[] [] [] [] [] [] [] []]; vm_compute; intuition congruence. Qed.

Lemma isalpha_no_number c :
  isalpha c = true → c ≠ "-"%char ∧ c ≠ "+"%char ∧ isdigit c = false.
Proof. destruct c as [[] [] [] [] [] [] [] []]; vm_compute; intuition congruence. Qed.

Lemma islower_weight c : islower c = true → 200 ≤ weight_of c.
Proof. destruct c as [[] [] [] [] [] [] [] []]; vm_compute; intuition congruence. Qed.

Lemma validate_trimmed raw :
  validate raw =
  if negb (length (trimmed raw) =? 5)%nat then (false, trimmed raw)
  else lower_loop (trimmed raw).
Proof. reflexivity. Qed.

Lemma validate_true_iff raw w :
  validate raw = (true, w) ↔
  length (trimmed raw) = 5%nat ∧
  Forall (λ c, isalpha c = true) (trimmed raw) ∧
  w = tolower <$> trimmed raw.
Proof.
  rewrite validate_trimmed. split.
  - destruct (length _ =? 5)%nat eqn:Hlen; [|done]. simpl.
    intros [-> Hall]%lower_loop_true. by apply Nat.eqb_eq in Hlen.
  - intros (Hlen & Hall & ->). rewrite Hlen. simpl. by apply lower_loop_all_alpha.
Qed.

Lemma validate_canonical raw w : validate raw = (true, w) → canonical w.
Proof.
  intros (Hlen & Hall & ->)%validate_true_iff. split; [by rewrite length_fmap|].
  rewrite Forall_fmap. eapply Forall_impl; [exact Hall|].
  intros c. apply isalpha_tolower_islower.
Qed.

(** X1: [validate] accepts a string exactly when, without its leading and
    trailing white space, it is five letters; the word it leaves is these
    letters in lower case. *)
Theorem validate_accepts_iff (raw w : word) :
  (validate raw = (true, w) ↔
     length (trimmed raw) = 5%nat ∧
     Forall (λ c, isalpha c = true) (trimmed raw) ∧
     w = tolower <$> trimmed raw) ∧
  (validate raw = (true, w) → canonical w).
Proof. split; [apply validate_true_iff|apply validate_canonical]. Qed.

Lemma validate_accepts_iff_witness :
  validate (str "  CRANE ") = (true, str "crane") ∧ canonical (str "crane").
Proof.
  assert (validate (str "  CRANE ") = (true, str "crane")) as Hv.
  { apply (proj1 (validate_accepts_iff (str "  CRANE ") (str "crane"))).
    split; [reflexivity|]. split; [|reflexivity].
    by apply (bool_decide_unpack _). }
  split; [exact Hv|].
  exact (proj2 (validate_accepts_iff (str "  CRANE ") (str "crane")) Hv).
Defined.

Lemma pop_back_loop_spaces n l post :
  all_spaces post → (length post ≤ n)%nat →
  pop_back_loop n (l ++ post) = pop_back_loop (n - length post) l.
Proof.
  revert n. induction post as [|c post IH] using rev_ind; intros n Hpost Hn.
  { by rewrite app_nil_r, Nat.sub_0_r. }
  apply Forall_app in Hpost as [Hpost Hc]. inv Hc.
  rewrite length_app in *. simpl in *.
  destruct n as [|n]; [lia|]. cbn [pop_back_loop].
  rewrite app_assoc, last_snoc, removelast_last.
  replace (isspace c) with true by done.
  rewrite IH by (done || lia). f_equal. lia.
Qed.

Lemma pop_back_spaces_app l post :
  all_spaces post → pop_back_spaces (l ++ post) = pop_back_spaces l.
Proof.
  intros Hpost. unfold pop_back_spaces.
  rewrite pop_back_loop_spaces by (done || rewrite length_app; lia).
  f_equal. rewrite length_app. lia.
Qed.

Lemma pop_back_spaces_no_space l : no_space_at (last l) → pop_back_spaces l = l.
Proof.
  destruct (last l) as [c|] eqn:Hl; simpl.
  - by apply pop_back_spaces_id.
  - apply last_None in Hl as ->. done.
Qed.

Lemma erase_front_spaces_app pre l :
  all_spaces pre → erase_front_spaces (pre ++ l) = erase_front_spaces l.
Proof. induction 1 as [|c pre Hc _ IH]; simpl; [done|]. by rewrite Hc. Qed.

Lemma erase_front_spaces_no_space l :
  no_space_at (head l) → erase_front_spaces l = l.
Proof. destruct l as [|c l]; simpl; [done|]. by intros ->. Qed.

(** The trimmed string is the only way to cut white space off both ends. *)
Lemma trimmed_unique raw pre t post :
  raw = pre ++ t ++ post → all_spaces pre → all_spaces post →
  no_space_at (head t) → no_space_at (last t) → trimmed raw = t.
Proof.
  intros -> Hpre Hpost Hhd Hlast. unfold trimmed.
  rewrite app_assoc, pop_back_spaces_app by done.
  destruct t as [|c t].
  - rewrite app_nil_r. replace pre with ([] ++ pre) by done.
    by rewrite pop_back_spaces_app.
  - rewrite pop_back_spaces_no_space.
    + rewrite erase_front_spaces_app by done. by apply erase_front_spaces_no_space.
    + by rewrite last_app_cons.
Qed.

Lemma trimmed_outer_space pre raw post :
  all_spaces pre → all_spaces post → trimmed (pre ++ raw ++ post) = trimmed raw.
Proof.
  intros Hpre Hpost.
  destruct (trimmed_spec raw) as (p & q & Hraw & Hp & Hq & Hhd & Hlast).
  apply (trimmed_unique _ (pre ++ p) _ (q ++ post)); [|by apply Forall_app..|done|done].
  rewrite Hraw at 1. by rewrite <-!app_assoc.
Qed.

(** X2: white space around a string does not count: with white space put
    before and after it, [validate] returns the same flag and leaves the
    same string.  A carriage return at the end of a line is such white
    space. *)
Theorem validate_ignores_outer_space (pre raw post : word) :
  all_spaces pre → all_spaces post →
  validate (pre ++ raw ++ post) = validate raw.
Proof.
  intros Hpre Hpost. by rewrite !validate_trimmed, trimmed_outer_space.
Qed.

Lemma validate_ignores_outer_space_witness :
  all_spaces (str " ") ∧ all_spaces [ "013"%char ] ∧
  validate (str " Crane" ++ [ "013"%char ]) = validate (str "Crane").
Proof.
  assert (all_spaces (str " ")) as Hpre by (by apply (bool_decide_unpack _)).
  assert (all_spaces [ "013"%char ]) as Hpost by (by apply (bool_decide_unpack _)).
  split; [exact Hpre|]. split; [exact Hpost|].
  exact (validate_ignores_outer_space (str " ") (str "Crane") [ "013"%char ] Hpre Hpost).
Defined.

Lemma load_loop_app lines words :
  load_loop lines words = words ++ load_loop lines [].
Proof.
  revert words. induction lines as [|line lines IH]; intros words; simpl.
  { by rewrite app_nil_r. }
  destruct (validate line) as [[] w]; [|done].
  rewrite (IH (words ++ [w])), (IH [w]). by rewrite <-!app_assoc.
Qed.

Lemma load_loop_cons line lines :
  load_loop (line :: lines) [] =
  (if (validate line).1 then [(validate line).2] else []) ++ load_loop lines [].
Proof.
  simpl. destruct (validate line) as [[] w]; simpl; [|done].
  by rewrite load_loop_app.
Qed.

Lemma load_loop_accepted lines :
  load_loop lines [] =
  (λ line, (validate line).2) <$> filter (λ line, (validate line).1 = true) lines.
Proof.
  induction lines as [|line lines IH]; [done|].
  rewrite load_loop_cons, filter_cons, IH.
  destruct ((validate line).1); [by rewrite decide_True|by rewrite decide_False].
Qed.

Lemma load_loop_canonical lines : Forall canonical (load_loop lines []).
Proof.
  induction lines as [|line lines IH]; [constructor|].
  rewrite load_loop_cons. apply Forall_app. split; [|done].
  destruct (validate line) as [[] w] eqn:Hv; simpl; [|constructor].
  constructor; [|constructor]. by apply (validate_canonical line).
Qed.

(** X3: the word lists [load_words] and [load_spelling_dictionary] return
    hold, in the order of the file, what [validate] left of every line it
    accepted, and nothing else; every word in them is five lower-case
    letters, and there are no more words than lines. *)
Theorem load_words_accepted_lines (f : file) :
  load_words f =
    (λ line, (validate line).2)
      <$> filter (λ line, (validate line).1 = true) (read_lines f) ∧
  load_spelling_dictionary f = load_words f ∧
  Forall canonical (load_words f) ∧
  (length (load_words f) ≤ length (read_lines f))%nat.
Proof.
  unfold load_spelling_dictionary, load_words.
  split; [apply load_loop_accepted|]. split; [done|].
  split; [apply load_loop_canonical|].
  rewrite load_loop_accepted, length_fmap. apply length_filter.
Qed.

Lemma islower_isalpha c : islower c = true → isalpha c = true.
Proof. unfold isalpha. intros ->. by destruct (isupper c). Qed.

Lemma islower_tolower c : islower c = true → tolower c = c.
Proof. destruct c as [[] [] [] [] [] [] [] []]; vm_compute; intuition congruence. Qed.

Lemma islower_no_newline c : islower c = true → c ≠ "010"%char.
Proof. destruct c as [[] [] [] [] [] [] [] []]; vm_compute; intuition congruence. Qed.

Lemma canonical_trimmed w : canonical w → trimmed w = w.
Proof.
  intros [Hlen Hall].
  apply (trimmed_unique w [] w []); [by rewrite app_nil_r|constructor..| |].
  - destruct w as [|c w]; [done|]. simpl. inv Hall.
    by apply isalpha_not_space, islower_isalpha.
  - destruct (last w) as [c|] eqn:Hl; [|done]. simpl.
    apply isalpha_not_space, islower_isalpha.
    eapply Forall_forall in Hall; [exact Hall|]. by eapply last_Some_elem_of.
Qed.

Lemma validate_canonical_id w : canonical w → validate w = (true, w).
Proof.
  intros Hw. apply validate_true_iff. rewrite (canonical_trimmed w Hw).
  destruct Hw as [Hlen Hall]. split; [done|]. split.
  - eapply Forall_impl; [exact Hall|]. apply islower_isalpha.
  - symmetry. rewrite <-(list_fmap_id w) at 2. apply Forall_fmap_ext_1.
    eapply Forall_impl; [exact Hall|]. apply islower_tolower.
Qed.

Lemma getlines_line line rest :
  "010"%char ∉ line →
  getlines (line ++ "010"%char :: rest) = line :: getlines rest.
Proof.
  induction line as [|c line IH]; intros Hnl; simpl.
  { reflexivity. }
  apply not_elem_of_cons in Hnl as [Hc Hnl].
  rewrite decide_False by done. by rewrite IH.
Qed.

Lemma unlines_cons line lines :
  unlines (line :: lines) = line ++ "010"%char :: unlines lines.
Proof. unfold unlines. simpl. by rewrite <-app_assoc. Qed.

Lemma getlines_unlines lines :
  Forall (λ line, "010"%char ∉ line) lines → getlines (unlines lines) = lines.
Proof.
  induction 1 as [|line lines Hline _ IH]; [done|].
  by rewrite unlines_cons, getlines_line, IH.
Qed.

Lemma load_loop_canonical_id ws : Forall canonical ws → load_loop ws [] = ws.
Proof.
  induction 1 as [|w ws Hw _ IH]; [done|].
  by rewrite load_loop_cons, (validate_canonical_id w Hw), IH.
Qed.

(** X4: writing and reading back.  A file that holds words of five
    lower-case letters, one a line, loads as these words, in their order and
    with their repetitions; and a file that cannot be opened loads as the
    empty list. *)
Theorem load_words_unlines (ws : list word) :
  Forall canonical ws →
  load_words (Some (unlines ws)) = ws ∧
  load_spelling_dictionary (Some (unlines ws)) = ws ∧
  load_words None = [].
Proof.
  intros Hws. unfold load_spelling_dictionary, load_words, read_lines.
  rewrite getlines_unlines.
  - by rewrite load_loop_canonical_id.
  - eapply Forall_impl; [exact Hws|]. intros w [_ Hall] Hnl.
    eapply Forall_forall in Hall; [|exact Hnl]. by apply islower_no_newline in Hall.
Qed.

Lemma load_words_unlines_witness :
  Forall canonical [str "crane"; str "slate"; str "crane"] ∧
  load_words (Some (unlines [str "crane"; str "slate"; str "crane"]))
  = [str "crane"; str "slate"; str "crane"].
Proof.
  assert (Forall canonical [str "crane"; str "slate"; str "crane"]) as Hws.
  { repeat constructor; by apply (bool_decide_unpack _). }
  split; [exact Hws|].
  exact (proj1 (load_words_unlines [str "crane"; str "slate"; str "crane"] Hws)).
Defined.

(** ** [load_words_2] *)

Lemma size_t_wrap_small z : 0 ≤ z < 2 ^ 64 → size_t_wrap z = z.
Proof. intros Hz. unfold size_t_wrap. by apply Z.mod_small. Qed.

Lemma size_t_wrap_neg z : - 2 ^ 64 ≤ z < 0 → size_t_wrap z = z + 2 ^ 64.
Proof.
  intros Hz. unfold size_t_wrap.
  rewrite <-(Z.mod_add z 1 (2 ^ 64)) by lia. apply Z.mod_small. lia.
Qed.

Lemma find_at_absent c s i : c ∉ s → find_at c s i = npos.
Proof.
  revert i. induction s as [|x s IH]; intros i Hc; simpl; [done|].
  apply not_elem_of_cons in Hc as [Hx Hc]. rewrite decide_False by done. by apply IH.
Qed.

Lemma find_at_first c a b i :
  c ∉ a → find_at c (a ++ c :: b) i = i + Z.of_nat (length a).
Proof.
  revert i. induction a as [|x a IH]; intros i Hc; simpl.
  { rewrite decide_True by done. lia. }
  apply not_elem_of_cons in Hc as [Hx Hc]. rewrite decide_False by done.
  rewrite IH by done. lia.
Qed.

Lemma find_app a l c :
  find (a ++ l) c (Z.of_nat (length a)) = find_at c l (Z.of_nat (length a)).
Proof.
  unfold find. rewrite length_app.
  destruct (Z.ltb_spec (Z.of_nat (length a + length l)) (Z.of_nat (length a))); [lia|].
  by rewrite Nat2Z.id, drop_app_length.
Qed.

Lemma substr_app a l n :
  substr (a ++ l) (Z.of_nat (length a)) n
  = inr (take (Z.to_nat (Z.min n (Z.of_nat (length l)))) l).
Proof.
  unfold substr. rewrite length_app.
  destruct (Z.ltb_spec (Z.of_nat (length a + length l)) (Z.of_nat (length a))); [lia|].
  rewrite Nat2Z.id, drop_app_length. do 3 f_equal. lia.
Qed.

Lemma substr_rest a l n :
  Z.of_nat (length l) ≤ n →
  substr (a ++ l) (Z.of_nat (length a)) n = inr l.
Proof.
  intros Hn. rewrite substr_app, Z.min_r, Nat2Z.id by done. by rewrite firstn_all.
Qed.

Lemma substr_field a b l :
  substr (a ++ b ++ l) (Z.of_nat (length a)) (Z.of_nat (length b)) = inr b.
Proof.
  rewrite substr_app, Z.min_l, Nat2Z.id by (rewrite length_app; lia).
  by rewrite take_app_length.
Qed.

Lemma find_zero line c : find line c 0 = find_at c line 0.
Proof. apply (find_app [] line). Qed.

Lemma substr_zero line n : Z.of_nat (length line) ≤ n → substr line 0 n = inr line.
Proof. apply (substr_rest [] line). Qed.

Lemma line_fields_tabless line :
  fits_string line → tabless line → line_fields line = inr (line, line).
Proof.
  unfold fits_string, tabless, line_fields. intros Hfit Htab.
  replace (find line "009"%char 0) with npos
    by (by rewrite find_zero, find_at_absent).
  change (size_t_wrap (npos + 1)) with 0.
  replace (find line "009"%char 0) with npos
    by (by rewrite find_zero, find_at_absent).
  change (size_t_wrap (npos - npos - 1)) with npos.
  change (size_t_wrap (npos + 1)) with 0.
  rewrite (substr_zero line npos) by (unfold npos; lia).
  rewrite (substr_zero line); [done|].
  rewrite size_t_wrap_neg by (unfold npos; lia). unfold npos. lia.
Qed.

Lemma line_fields_one_tab a b :
  fits_string (a ++ "009"%char :: b) → tabless a → tabless b →
  line_fields (a ++ "009"%char :: b) = inr (b, a ++ "009"%char :: b).
Proof.
  unfold fits_string, tabless, line_fields. intros Hfit Ha Hb.
  set (line := a ++ "009"%char :: b) in *.
  assert (Z.of_nat (length line) = Z.of_nat (length a) + 1 + Z.of_nat (length b)) as Hlen
    by (unfold line; rewrite length_app; simpl; lia).
  replace (find line "009"%char 0) with (Z.of_nat (length a)).
  2:{ rewrite find_zero. unfold line. by rewrite find_at_first. }
  rewrite (size_t_wrap_small (Z.of_nat (length a) + 1)) by lia.
  assert (line = (a ++ ["009"%char]) ++ b) as Hline by (unfold line; by rewrite <-app_assoc).
  assert (Z.of_nat (length a) + 1 = Z.of_nat (length (a ++ ["009"%char]))) as Hpos
    by (rewrite length_app; simpl; lia).
  replace (find line "009"%char (Z.of_nat (length a) + 1)) with npos.
  2:{ rewrite Hline, Hpos, find_app. by rewrite find_at_absent. }
  rewrite Hline at 1. rewrite Hpos at 1.
  rewrite substr_rest.
  2:{ rewrite size_t_wrap_small; unfold npos; lia. }
  change (size_t_wrap (npos + 1)) with 0.
  rewrite (substr_zero line); [done|].
  rewrite size_t_wrap_neg by (unfold npos; lia). unfold npos. lia.
Qed.

Lemma line_fields_record id wd fq :
  fits_string (record_line id wd fq) → tabless id → tabless wd →
  line_fields (record_line id wd fq) = inr (wd, fq).
Proof.
  unfold fits_string, tabless, line_fields. intros Hfit Hid Hwd.
  set (line := record_line id wd fq) in *.
  assert (Z.of_nat (length line)
          = Z.of_nat (length id) + 1 + Z.of_nat (length wd) + 1 + Z.of_nat (length fq))
    as Hlen by (unfold line, record_line; rewrite !length_app, !length_cons, length_app;
                simpl; lia).
  replace (find line "009"%char 0) with (Z.of_nat (length id)).
  2:{ rewrite find_zero. unfold line, record_line. by rewrite find_at_first. }
  rewrite (size_t_wrap_small (Z.of_nat (length id) + 1)) by lia.
  assert (line = (id ++ ["009"%char]) ++ wd ++ "009"%char :: fq) as Hline
    by (unfold line, record_line; by rewrite <-app_assoc).
  assert (Z.of_nat (length id) + 1 = Z.of_nat (length (id ++ ["009"%char]))) as Hpos
    by (rewrite length_app; simpl; lia).
  replace (find line "009"%char (Z.of_nat (length id) + 1))
    with (Z.of_nat (length id) + 1 + Z.of_nat (length wd)).
  2:{ rewrite Hline, Hpos, find_app. by rewrite find_at_first. }
  rewrite Hline at 1. rewrite Hpos at 1.
  rewrite (size_t_wrap_small (_ - _ - 1)) by lia.
  replace (Z.of_nat (length id) + 1 + Z.of_nat (length wd) - Z.of_nat (length id) - 1)
    with (Z.of_nat (length wd)) by lia.
  rewrite substr_field.
  assert (line = (id ++ "009"%char :: wd ++ ["009"%char]) ++ fq) as Hline'.
  { unfold line, record_line. rewrite <-!app_assoc. simpl. by rewrite <-app_assoc. }
  assert (Z.of_nat (length id) + 1 + Z.of_nat (length wd) + 1
          = Z.of_nat (length (id ++ "009"%char :: wd ++ ["009"%char]))) as Hpos'
    by (rewrite length_app, length_cons, length_app; simpl; lia).
  rewrite (size_t_wrap_small (_ + 1)) by lia.
  rewrite Hline' at 1. rewrite Hpos'. rewrite substr_rest; [done|].
  rewrite size_t_wrap_small; lia.
Qed.

(** X5: the fields of a line.  With two tabs or more the word is what
    stands between the first two and the frequency what follows the second;
    with one tab the word is what follows it and the frequency field is the
    whole line; with none both fields are the whole line.  No [substr]
    throws. *)
Theorem line_fields_cases (line : word) :
  fits_string line →
  (tabless line → line_fields line = inr (line, line)) ∧
  (∀ a b, line = a ++ "009"%char :: b → tabless a → tabless b →
          line_fields line = inr (b, line)) ∧
  (∀ id wd fq, line = record_line id wd fq → tabless id → tabless wd →
               line_fields line = inr (wd, fq)).
Proof.
  intros Hfit. split; [by apply line_fields_tabless|]. split.
  - intros a b -> Ha Hb. by apply line_fields_one_tab.
  - intros id wd fq -> Hid Hwd. by apply line_fields_record.
Qed.

Lemma line_fields_cases_witness :
  fits_string (record_line (str "17") (str "Crane") (str "342")) ∧
  line_fields (record_line (str "17") (str "Crane") (str "342"))
  = inr (str "Crane", str "342").
Proof.
  assert (fits_string (record_line (str "17") (str "Crane") (str "342"))) as Hfit
    by (unfold fits_string; simpl; lia).
  split; [exact Hfit|].
  apply (proj2 (proj2 (line_fields_cases _ Hfit)) (str "17") (str "Crane") (str "342"));
    [reflexivity|by apply (bool_decide_unpack _)..].
Defined.

Lemma stoi_int_range s n : stoi s = inr n → int_range n.
Proof.
  unfold stoi, int_range.
  destruct (match erase_front_spaces s with
            | [] => (false, erase_front_spaces s)
            | c :: rest => _ end) as [negative s2].
  destruct s2 as [|c s2]; [done|]. destruct (isdigit c); [|done].
  destruct (_ && _) eqn:Hr; [|done]. intros [= <-].
  apply andb_true_iff in Hr as [?%Z.leb_le ?%Z.leb_le]. by split.
Qed.

(** Where a word [validate] accepts begins, [std::stoi] finds no number. *)
Lemma stoi_accepted_word line :
  (validate line).1 = true → stoi line = inl invalid_argument.
Proof.
  destruct (validate line) as [ok w] eqn:Hv. simpl. intros ->.
  apply validate_true_iff in Hv as (Hlen & Hall & _).
  destruct (trimmed_spec line) as (pre & post & Hline & Hpre & _ & Hhd & _).
  destruct (trimmed line) as [|c t]; [done|]. apply Forall_cons in Hall as [Hc _].
  unfold stoi. rewrite Hline, erase_front_spaces_app by done.
  rewrite erase_front_spaces_no_space by done. simpl.
  destruct (isalpha_no_number c) as (Hminus & Hplus & Hdigit); [done|].
  rewrite decide_False, decide_False, Hdigit by done. done.
Qed.

(** X6: a line without a tab that is a word [validate] accepts stops the
    load: its frequency field is the line itself, in which [std::stoi]
    finds no number and throws [invalid_argument]. *)
Theorem load_words_2_tabless_word
    (line : word) (rest words : list word) (freqs : list Z) :
  fits_string line → tabless line → (validate line).1 = true →
  load_words_2_loop (line :: rest) words freqs = inl invalid_argument.
Proof.
  intros Hfit Htab Hv. cbn [load_words_2_loop].
  rewrite line_fields_tabless by done.
  rewrite (stoi_accepted_word line Hv).
  destruct (validate line) as [ok w]. simpl in Hv. by subst ok.
Qed.

Lemma load_words_2_tabless_word_witness :
  load_words_2 (Some (unlines [record_line (str "1") (str "crane") (str "9"); str "slate"]))
  = inl invalid_argument.
Proof.
  apply (load_words_2_tabless_word (str "slate") []
           [str "crane"] [9]); [by vm_compute|by apply (bool_decide_unpack _)|reflexivity].
Defined.

Lemma load_words_2_loop_invariant lines words freqs words' freqs' :
  load_words_2_loop lines words freqs = inr (words', freqs') →
  length words = length freqs → Forall canonical words → Forall int_range freqs →
  length words' = length freqs' ∧ Forall canonical words' ∧ Forall int_range freqs'.
Proof.
  revert words freqs. induction lines as [|line lines IH]; intros words freqs; simpl.
  { by intros [= <- <-]. }
  destruct (line_fields line) as [e|[w freq]]; [done|].
  destruct (validate w) as [[] w'] eqn:Hv; simpl; [|by apply IH].
  destruct (stoi freq) as [e|n] eqn:Hn; [done|].
  intros Hload Hlen Hwords Hfreqs. apply (IH _ _ Hload).
  - rewrite !length_app. simpl. lia.
  - apply Forall_app. split; [done|]. constructor; [|constructor].
    by apply (validate_canonical w).
  - apply Forall_app. split; [done|]. constructor; [|constructor].
    by apply (stoi_int_range freq).
Qed.

Lemma freq_words_loop_is_Some (words : list word) (freqs : list Z) (m : gmap word Z) :
  (length words ≤ length freqs)%nat → is_Some (freq_words_loop words freqs m).
Proof.
  revert freqs m. induction words as [|w words IH]; intros [|f freqs] m Hlen;
    simpl in *; try done; [lia|]. apply IH. lia.
Qed.

(** X7: what [load_words_2] returns.  There are as many frequencies as
    words, so that the loop which fills [freq_words] stays within [freqs];
    every word is five lower-case letters; every frequency is a value of an
    [int]. *)
Theorem load_words_2_invariant (f : file) (words : list word) (freqs : list Z) :
  load_words_2 f = inr (words, freqs) →
  length words = length freqs ∧
  Forall canonical words ∧
  Forall int_range freqs ∧
  is_Some (freq_words words freqs).
Proof.
  intros Hload.
  destruct (load_words_2_loop_invariant _ _ _ _ _ Hload) as (Hlen & Hw & Hf);
    [done|constructor..|].
  split; [done|]. split; [done|]. split; [done|].
  apply freq_words_loop_is_Some. lia.
Qed.

Lemma load_words_2_invariant_witness :
  load_words_2 (Some (unlines [record_line (str "1") (str "Crane") (str "342");
                               record_line (str "2") (str "the") (str "90210");
                               record_line (str "3") (str "slate") (str "17")]))
  = inr ([str "crane"; str "slate"], [342; 17]) ∧
  length [str "crane"; str "slate"] = length [342; 17] ∧
  Forall canonical [str "crane"; str "slate"].
Proof.
  assert (load_words_2
            (Some (unlines [record_line (str "1") (str "Crane") (str "342");
                            record_line (str "2") (str "the") (str "90210");
                            record_line (str "3") (str "slate") (str "17")]))
          = inr ([str "crane"; str "slate"], [342; 17])) as Hload by reflexivity.
  destruct (load_words_2_invariant _ _ _ Hload) as (Hlen & Hw & _).
  split; [exact Hload|]. split; [exact Hlen|exact Hw].
Defined.

(** X8: a record [id<TAB>word<TAB>freq].  If [validate] accepts the word,
    the word as [validate] left it and the number [freq] begins with are
    added; if [std::stoi] throws on [freq], the load throws.  If [validate]
    rejects the word the record is skipped, whatever [freq] is. *)
Theorem load_words_2_record
    (id wd fq : word) (rest words : list word) (freqs : list Z) :
  fits_string (record_line id wd fq) → tabless id → tabless wd →
  load_words_2_loop (record_line id wd fq :: rest) words freqs =
  if (validate wd).1
  then match stoi fq with
       | inl e => inl e
       | inr n => load_words_2_loop rest (words ++ [(validate wd).2]) (freqs ++ [n])
       end
  else load_words_2_loop rest words freqs.
Proof.
  intros Hfit Hid Hwd. cbn [load_words_2_loop].
  rewrite line_fields_record by done. by destruct (validate wd) as [[] w].
Qed.

Lemma load_words_2_record_witness :
  load_words_2_loop [record_line (str "7") (str " Crane") (str "342 x")] [] []
  = inr ([str "crane"], [342]) ∧
  load_words_2_loop [record_line (str "7") (str "cr4ne") (str "many")] [] []
  = inr ([], []).
Proof.
  split.
  - rewrite (load_words_2_record (str "7") (str " Crane") (str "342 x") [] [] []);
      [reflexivity|by vm_compute|by apply (bool_decide_unpack _)..].
  - rewrite (load_words_2_record (str "7") (str "cr4ne") (str "many") [] [] []);
      [reflexivity|by vm_compute|by apply (bool_decide_unpack _)..].
Defined.

(** ** The sort by word frequency, and the words shown *)









(** X11: the fifteen words shown after the sort by letter frequency are the
    first fifteen of the sorted list: no candidate left out scores more than
    a word shown, and with fifteen candidates or fewer all are shown. *)
Theorem shown_are_best (legal_words out : list word) :
  rank_by_letter_score legal_words out →
  length (shown out) = Nat.min 15 (length legal_words) ∧
  (∀ x y, x ∈ shown out → y ∈ drop 15 out → score y ≤ score x) ∧
  ((length legal_words ≤ 15)%nat → shown out ≡ₚ legal_words).
Proof.
  intros Hout. pose proof (rank_by_letter_score_non_increasing _ _ Hout) as Hnon.
  destruct Hout as [Hperm _]. unfold shown. split; [|split].
  - by rewrite length_take, Hperm.
  - intros x y [i Hx]%list_elem_of_lookup [j Hy]%list_elem_of_lookup.
    apply lookup_take_Some in Hx as [Hx Hi]. rewrite lookup_drop in Hy.
    apply (Hnon i (15 + j)%nat x y); [lia|done..].
  - intros Hlen. rewrite take_ge by (rewrite <-Hperm; lia). by symmetry.
Qed.

Lemma shown_are_best_witness :
  rank_by_letter_score tie_candidates tie_ranked ∧
  length (shown tie_ranked) = 15%nat.
Proof.
  split; [exact tie_ranked_sort_result|].
  exact (proj1 (shown_are_best tie_candidates tie_ranked tie_ranked_sort_result)).
Defined.

(** ** More on [solve] *)

Lemma exclude_loop_fail w l excl fail :
  exclude_loop w l excl fail = orb fail <$> exclude_loop w l excl false.
Proof.
  revert fail. induction excl as [|i excl IH]; intros fail; simpl.
  { by rewrite orb_false_r. }
  destruct (word_at w i) as [c|]; simpl; [|done].
  rewrite (IH (if decide (c = l) then true else fail)),
          (IH (if decide (c = l) then true else false)).
  destruct (exclude_loop w l excl false) as [b|]; simpl; [|done].
  destruct (decide (c = l)); simpl; [by rewrite orb_true_r|done].
Qed.

Lemma check_constraint_fail w c fail :
  check_constraint w c fail = orb fail <$> check_constraint w c false.
Proof.
  unfold check_constraint. destruct (kind c).
  - simpl. f_equal. destruct (contains w (letter c)); [by rewrite orb_true_r|
                                                       by rewrite orb_false_r].
  - destruct (negb _); simpl; [by rewrite orb_true_r|]. apply exclude_loop_fail.
  - destruct (position c) as [p|]; simpl; [|done].
    destruct (word_at w p) as [ch|]; simpl; [|done]. f_equal.
    destruct (decide (ch ≠ letter c)); [by rewrite orb_true_r|by rewrite orb_false_r].
Qed.

Lemma check_constraints_fail w cs fail :
  check_constraints w cs fail = orb fail <$> word_fails cs w.
Proof.
  unfold word_fails. revert fail. induction cs as [|c cs IH]; intros fail; simpl.
  { by rewrite orb_false_r. }
  rewrite (check_constraint_fail w c fail).
  destruct (check_constraint w c false) as [b|]; simpl; [|done].
  rewrite (IH (fail || b)), (IH b).
  destruct (check_constraints w cs false); simpl; [|done]. by rewrite orb_assoc.
Qed.

Lemma word_fails_cons c cs w :
  word_fails (c :: cs) w =
  match check_constraint w c false, word_fails cs w with
  | Some b1, Some b2 => Some (b1 || b2)
  | _, _ => None
  end.
Proof.
  unfold word_fails at 1. simpl.
  destruct (check_constraint w c false) as [b|]; simpl; [|done].
  rewrite check_constraints_fail. by destruct (word_fails cs w).
Qed.

Lemma word_fails_app cs1 cs2 w :
  word_fails (cs1 ++ cs2) w =
  match word_fails cs1 w, word_fails cs2 w with
  | Some b1, Some b2 => Some (b1 || b2)
  | _, _ => None
  end.
Proof.
  induction cs1 as [|c cs1 IH]; simpl.
  { change (word_fails [] w) with (Some false). by destruct (word_fails cs2 w). }
  rewrite !word_fails_cons, IH.
  destruct (check_constraint w c false), (word_fails cs1 w), (word_fails cs2 w);
    simpl; try done. by rewrite orb_assoc.
Qed.

Lemma word_fails_Permutation cs cs' w : cs ≡ₚ cs' → word_fails cs w = word_fails cs' w.
Proof.
  induction 1 as [|c cs cs' _ IH|c1 c2 cs|cs1 cs2 cs3 _ IH1 _ IH2].
  - done.
  - by rewrite !word_fails_cons, IH.
  - rewrite !word_fails_cons.
    destruct (check_constraint w c1 false) as [[]|],
             (check_constraint w c2 false) as [[]|], (word_fails cs w) as [[]|]; done.
  - by rewrite IH1.
Qed.

Lemma kept_app cs1 cs2 w : kept (cs1 ++ cs2) w ↔ kept cs1 w ∧ kept cs2 w.
Proof.
  unfold kept. rewrite word_fails_app.
  destruct (word_fails cs1 w) as [[]|], (word_fails cs2 w) as [[]|]; simpl;
    split; (done || by intros [??]).
Qed.

Lemma solve_ext cs cs' words :
  (∀ w, w ∈ words → word_fails cs w = word_fails cs' w) →
  solve cs words = solve cs' words.
Proof.
  unfold solve. generalize (@nil word).
  induction words as [|w words IH]; intros acc Hext; simpl; [done|].
  rewrite <-(Hext w) by left. destruct (word_fails cs w); simpl; [|done].
  apply IH. intros v Hv. apply Hext. by right.
Qed.

(** X12: constraints compose.  Solving for two lists of constraints at
    once gives what solving for the first and then, on the words kept, for
    the second gives. *)
Theorem solve_app_constraints (cs1 cs2 : list constraint) (words out : list word) :
  solve (cs1 ++ cs2) words = Some out →
  ∃ mid, solve cs1 words = Some mid ∧ solve cs2 mid = Some out.
Proof.
  intros [Hdef ->]%solve_spec.
  assert (Forall (λ w, is_Some (word_fails cs1 w) ∧ is_Some (word_fails cs2 w)) words)
    as Hboth.
  { eapply Forall_impl; [exact Hdef|]. intros w. cbv beta. rewrite word_fails_app.
    destruct (word_fails cs1 w), (word_fails cs2 w); by intros [? [=]] || done. }
  apply Forall_and in Hboth as [H1 H2].
  exists (filter (kept cs1) words). split; [by apply solve_defined|].
  rewrite solve_defined.
  - f_equal. rewrite list_filter_filter. apply list_filter_iff.
    intros w. rewrite kept_app. tauto.
  - apply Forall_forall. intros w [_ Hw]%list_elem_of_filter.
    by eapply Forall_forall in H2.
Qed.

Lemma solve_app_constraints_witness :
  solve ([Constraint not_present "s" None []] ++ [Constraint perfect "l" (Some 4) []])
        (str <$> ["rebel"; "slate"; "crane"]%string) = Some [str "rebel"] ∧
  ∃ mid, solve [Constraint not_present "s" None []]
               (str <$> ["rebel"; "slate"; "crane"]%string) = Some mid ∧
         solve [Constraint perfect "l" (Some 4) []] mid = Some [str "rebel"].
Proof.
  assert (solve ([Constraint not_present "s" None []]
                   ++ [Constraint perfect "l" (Some 4) []])
                (str <$> ["rebel"; "slate"; "crane"]%string) = Some [str "rebel"])
    as Hsolve by reflexivity.
  split; [exact Hsolve|]. exact (solve_app_constraints _ _ _ _ Hsolve).
Defined.

(** X13: the order of the constraints does not matter: [solve] returns the
    same for a list of constraints and for a permutation of it, and is
    undefined for both or for none. *)
Theorem solve_constraints_permutation (cs cs' : list constraint) (words : list word) :
  cs ≡ₚ cs' → solve cs words = solve cs' words.
Proof.
  intros Hperm. apply solve_ext. intros w _. by apply word_fails_Permutation.
Qed.

Lemma solve_constraints_permutation_witness :
  solve [Constraint perfect "l" (Some 4) []; Constraint not_present "s" None []]
        (str <$> ["rebel"; "slate"]%string)
  = solve [Constraint not_present "s" None []; Constraint perfect "l" (Some 4) []]
          (str <$> ["rebel"; "slate"]%string).
Proof.
  apply (solve_constraints_permutation
           [Constraint perfect "l" (Some 4) []; Constraint not_present "s" None []]
           [Constraint not_present "s" None []; Constraint perfect "l" (Some 4) []]).
  apply perm_swap.
Defined.

Lemma solve_loop_acc cs words acc :
  solve_loop cs words acc = (acc ++.) <$> solve cs words.
Proof.
  destruct (solve_loop cs words acc) as [out|] eqn:Hout.
  - apply solve_loop_spec in Hout as [Hdef ->]. by rewrite solve_defined.
  - destruct (solve cs words) as [out|] eqn:Hs; [|done].
    apply solve_spec in Hs as [Hdef _].
    destruct (solve_loop_defined cs words acc Hdef) as [? ?]. congruence.
Qed.

Lemma solve_loop_app cs words1 words2 acc :
  solve_loop cs (words1 ++ words2) acc =
  match solve_loop cs words1 acc with
  | Some legal_words => solve_loop cs words2 legal_words
  | None => None
  end.
Proof.
  revert acc. induction words1 as [|w words1 IH]; intros acc; simpl; [done|].
  destruct (word_fails cs w); simpl; [|done]. apply IH.
Qed.

(** X14: [solve] works word by word.  Solving a word list made of two parts
    gives the two results one after the other, and is undefined when one of
    them is; solving again what [solve] returned returns it unchanged. *)
Theorem solve_app_words (cs : list constraint) (words1 words2 : list word) :
  solve cs (words1 ++ words2) =
    match solve cs words1, solve cs words2 with
    | Some out1, Some out2 => Some (out1 ++ out2)
    | _, _ => None
    end ∧
  (∀ out, solve cs words1 = Some out → solve cs out = Some out).
Proof.
  split.
  - unfold solve at 1. rewrite solve_loop_app. fold (solve cs words1).
    destruct (solve cs words1) as [out1|]; [|done].
    rewrite solve_loop_acc. by destruct (solve cs words2).
  - intros out [Hdef ->]%solve_spec. rewrite solve_defined.
    + f_equal. rewrite list_filter_filter. apply list_filter_iff. tauto.
    + apply Forall_forall. intros w [_ Hw]%list_elem_of_filter.
      by eapply Forall_forall in Hdef.
Qed.

Lemma solve_app_words_witness :
  solve main_cs (str <$> ["rebel"; "slate"]%string) = Some [str "rebel"] ∧
  solve main_cs [str "rebel"] = Some [str "rebel"].
Proof.
  assert (solve main_cs (str <$> ["rebel"; "slate"]%string) = Some [str "rebel"])
    as Hsolve by reflexivity.
  split; [exact Hsolve|].
  exact (proj2 (solve_app_words main_cs (str <$> ["rebel"; "slate"]%string) []) _ Hsolve).
Defined.

Lemma word_at_elem_of w p c : in_range (length w) p → word_at w p = Some c → c ∈ w.
Proof.
  unfold in_range, word_at. intros [Hlo Hhi].
  rewrite (proj2 (Z.leb_le _ _) Hlo), (proj2 (Z.ltb_lt _ _) Hhi). simpl.
  apply list_elem_of_lookup_2.
Qed.

(** X15: feedback that contradicts itself leaves no word.  When a letter is
    marked [not_present] and also [present], or [perfect] at a position of
    the words, [solve] returns the empty list. *)
Theorem solve_contradictory
    (cs : list constraint) (words out : list word) (c1 c2 : constraint) :
  c1 ∈ cs → c2 ∈ cs → kind c1 = not_present → letter c2 = letter c1 →
  (kind c2 = present ∨
   ∃ p, kind c2 = perfect ∧ position c2 = Some p ∧
        Forall (λ w, in_range (length w) p) words) →
  solve cs words = Some out → out = [].
Proof.
  intros Hc1 Hc2 Hk1 Hletter Hk2 Hsolve.
  destruct out as [|w out]; [done|]. exfalso.
  assert (w ∈ w :: out) as Hw by left.
  apply (elem_of_solve _ _ _ _ Hsolve) in Hw as [Hw Hsat].
  rewrite Forall_forall in Hsat.
  pose proof (Hsat c1 Hc1) as Hs1. pose proof (Hsat c2 Hc2) as Hs2.
  unfold satisfies in Hs1, Hs2. rewrite Hk1 in Hs1. rewrite Hletter in Hs2.
  destruct Hk2 as [Hk2|(p & Hk2 & Hp & Hrange)]; rewrite Hk2 in Hs2.
  - by destruct Hs2.
  - destruct Hs2 as (p' & Hp' & Hat). rewrite Hp in Hp'. injection Hp' as <-.
    eapply Forall_forall in Hrange; [|exact Hw].
    by apply Hs1, (word_at_elem_of w p).
Qed.

Lemma solve_contradictory_witness :
  solve [Constraint not_present "e" None []; Constraint present "e" None [0]]
        (str <$> ["rebel"; "slate"; "crumb"]%string) = Some [].
Proof.
  assert (∃ out, solve [Constraint not_present "e" None []; Constraint present "e" None [0]]
                   (str <$> ["rebel"; "slate"; "crumb"]%string) = Some out) as [out Hout]
    by (by eexists).
  rewrite Hout. f_equal.
  apply (solve_contradictory _ _ _ (Constraint not_present "e" None [])
           (Constraint present "e" None [0]) (list_elem_of_here _ _)
           (list_elem_of_further _ _ _ (list_elem_of_here _ _)) eq_refl eq_refl
           (or_introl eq_refl) Hout).
Defined.

(** ** More on the candidates *)

Lemma solve_defined_same_words cs words words' :
  (∀ w, w ∈ words' → w ∈ words) →
  is_Some (solve cs words) → is_Some (solve cs words').
Proof.
  intros Hsub [out [Hdef _]%solve_spec]. apply solve_loop_defined.
  apply Forall_forall. intros w Hw%Hsub. by eapply Forall_forall in Hdef.
Qed.

(** X16: the candidate list depends on the corpus and on the dictionary as
    sets only: two corpora with the same words, in any order and with any
    repetitions, and two dictionaries with the same words, give the same
    list. *)
Theorem filter_candidates_set_determined
    (cs : list constraint) (words words' dictionary_words dictionary_words' out : list word) :
  (∀ w, w ∈ words ↔ w ∈ words') →
  (∀ w, w ∈ dictionary_words ↔ w ∈ dictionary_words') →
  filter_candidates cs words dictionary_words = Some out →
  filter_candidates cs words' dictionary_words' = Some out.
Proof.
  intros Hwords Hdict Hout.
  destruct (filter_candidates_defined cs words' dictionary_words') as [out' Hout'].
  { apply (solve_defined_same_words cs words); [intros w; apply Hwords|].
    unfold filter_candidates in Hout. by destruct (solve cs words). }
  rewrite Hout'. f_equal.
  apply filter_candidates_spec in Hout as (Hs & Hnd & Hin).
  apply filter_candidates_spec in Hout' as (Hs' & Hnd' & Hin').
  apply (StronglySorted_unique_strong (λ a b, sv_less a b = true)); [|done..|].
  - intros a b _ _ Hab Hba. by rewrite (swo_asym sv_less a b sv_less_swo Hab) in Hba.
  - apply NoDup_Permutation; [done..|]. intros w.
    rewrite Hin, Hin', Hwords, Hdict. done.
Qed.

Lemma filter_candidates_set_determined_witness :
  filter_candidates main_cs (str <$> ["rebel"; "bezel"; "rebel"]%string)
                    (str <$> ["bezel"; "rebel"]%string)
  = Some (str <$> ["bezel"; "rebel"]%string) ∧
  filter_candidates main_cs (str <$> ["bezel"; "rebel"]%string)
                    (str <$> ["rebel"; "bezel"; "bezel"]%string)
  = Some (str <$> ["bezel"; "rebel"]%string).
Proof.
  assert (filter_candidates main_cs (str <$> ["rebel"; "bezel"; "rebel"]%string)
            (str <$> ["bezel"; "rebel"]%string)
          = Some (str <$> ["bezel"; "rebel"]%string)) as Hf by (by vm_compute).
  split; [exact Hf|].
  apply (filter_candidates_set_determined main_cs
           (str <$> ["rebel"; "bezel"; "rebel"]%string) _
           (str <$> ["bezel"; "rebel"]%string) _ _); [| |exact Hf].
  - intros w. simpl. rewrite !elem_of_cons, !elem_of_nil. tauto.
  - intros w. simpl. rewrite !elem_of_cons, !elem_of_nil. tauto.
Defined.

(** X17: the counts [main] reports go down: the dictionary matches are no
    more than the possible matches, which are no more than the words
    loaded.  With an empty dictionary, or an empty corpus, no candidate is
    left. *)
Theorem match_counts
    (cs : list constraint) (words dictionary_words out : list word) :
  filter_candidates cs words dictionary_words = Some out →
  ∃ legal_words,
    solve cs words = Some legal_words ∧
    (length out ≤ length legal_words ≤ length words)%nat ∧
    (dictionary_words = [] → out = []) ∧
    (words = [] → out = []).
Proof.
  intros Hout. pose proof (filter_candidates_spec _ _ _ _ Hout) as (_ & Hnd & Hin).
  unfold filter_candidates in Hout.
  destruct (solve cs words) as [legal_words|] eqn:Hsolve; [|done].
  exists legal_words. split; [done|]. split; [split|split].
  - apply submseteq_length, NoDup_submseteq; [done|].
    intros w [? [Hsat _]]%Hin. by apply (elem_of_solve _ _ _ _ Hsolve).
  - apply solve_spec in Hsolve as [_ ->]. apply length_filter.
  - intros ->. destruct out as [|w out]; [done|].
    destruct (proj1 (Hin w)) as (_ & _ & []%elem_of_nil). by left.
  - intros ->. destruct out as [|w out]; [done|].
    destruct (proj1 (Hin w)) as ([]%elem_of_nil & _). by left.
Qed.

Lemma match_counts_witness :
  filter_candidates main_cs (str <$> ["rebel"; "bezel"; "slate"; "bezel"]%string)
                    [str "bezel"] = Some [str "bezel"] ∧
  ∃ legal_words,
    solve main_cs (str <$> ["rebel"; "bezel"; "slate"; "bezel"]%string) = Some legal_words ∧
    (length [str "bezel"] ≤ length legal_words ≤ 4)%nat.
Proof.
  assert (filter_candidates main_cs (str <$> ["rebel"; "bezel"; "slate"; "bezel"]%string)
            [str "bezel"] = Some [str "bezel"]) as Hf by (by vm_compute).
  split; [exact Hf|].
  destruct (match_counts _ _ _ _ Hf) as (legal_words & Hsolve & Hlen & _).
  exists legal_words. split; [exact Hsolve|exact Hlen].
Defined.

(** ** More on [score] and [best_word] *)

Lemma sum_weights_app l1 l2 : sum_weights (l1 ++ l2) = sum_weights l1 + sum_weights l2.
Proof.
  induction l1 as [|c l1 IH]; [done|].
  rewrite <-app_comm_cons, !sum_weights_cons, IH. lia.
Qed.

Lemma score_le_subset w v : (∀ c, c ∈ w → c ∈ v) → score w ≤ score v.
Proof.
  intros Hsub. rewrite !score_sum_weights. apply sum_weights_submseteq.
  apply NoDup_submseteq; [apply distinct_letters_NoDup|].
  intros c. rewrite !elem_of_distinct_letters. apply Hsub.
Qed.

(** X18: the score of two words put together.  It is at least the score of
    each and at most their sum, and it is their sum when they share no
    letter; the order in which they are put does not count.  The empty word
    scores 0. *)
Theorem score_app (w v : word) :
  score [] = 0 ∧
  score w ≤ score (w ++ v) ∧
  score v ≤ score (w ++ v) ∧
  score (w ++ v) ≤ score w + score v ∧
  score (w ++ v) = score (v ++ w) ∧
  ((∀ c, c ∈ w → c ∉ v) → score (w ++ v) = score w + score v).
Proof.
  split; [reflexivity|]. split; [|split; [|split; [|split]]].
  - apply score_le_subset. intros c Hc. apply elem_of_app. by left.
  - apply score_le_subset. intros c Hc. apply elem_of_app. by right.
  - rewrite !score_sum_weights, <-sum_weights_app. apply sum_weights_submseteq.
    apply NoDup_submseteq; [apply distinct_letters_NoDup|].
    intros c. rewrite elem_of_app, !elem_of_distinct_letters. apply elem_of_app.
  - apply score_same_letters. intros c. rewrite !elem_of_app. tauto.
  - intros Hdisjoint. rewrite (score_sum_weights w), (score_sum_weights v), <-sum_weights_app.
    apply score_enumeration.
    + apply NoDup_app. split; [apply distinct_letters_NoDup|].
      split; [|apply distinct_letters_NoDup].
      intros c. rewrite !elem_of_distinct_letters. apply Hdisjoint.
    + intros c. by rewrite !elem_of_app, !elem_of_distinct_letters.
Qed.

Lemma score_app_witness :
  (∀ c, c ∈ str "cr" → c ∉ str "ane") ∧
  score (str "cr" ++ str "ane") = score (str "cr") + score (str "ane").
Proof.
  assert (∀ c, c ∈ str "cr" → c ∉ str "ane") as Hdisjoint.
  { intros c [->|[->|[]%elem_of_nil]%elem_of_cons]%elem_of_cons;
      by apply (bool_decide_unpack _). }
  split; [exact Hdisjoint|].
  exact (proj2 (proj2 (proj2 (proj2 (proj2 (score_app (str "cr") (str "ane")))))) Hdisjoint).
Defined.

Lemma weight_of_le c :
  weight_of c ≤
  8000 + (if decide (c = "e"%char) then 4000 else 0)
       + (if decide (c = "t"%char) then 1000 else 0).
Proof. destruct c as [[] [] [] [] [] [] [] []]; vm_compute; congruence. Qed.

Lemma sum_weights_le ds :
  NoDup ds →
  sum_weights ds ≤
  8000 * Z.of_nat (length ds)
  + (if decide ("e"%char ∈ ds) then 4000 else 0)
  + (if decide ("t"%char ∈ ds) then 1000 else 0).
Proof.
  induction 1 as [|c ds Hc Hnd IH]; [done|].
  rewrite sum_weights_cons, length_cons. pose proof (weight_of_le c) as Hw.
  assert (∀ x : ascii,
            (if decide (c = x) then 4000 else 0) + (if decide (x ∈ ds) then 4000 else 0)
            = (if decide (x ∈ c :: ds) then 4000 else 0)
            ∧ (if decide (c = x) then 1000 else 0) + (if decide (x ∈ ds) then 1000 else 0)
              = (if decide (x ∈ c :: ds) then 1000 else 0)) as Hsplit.
  { intros x.
    destruct (decide (c = x)) as [Hcx|Hcx], (decide (x ∈ ds)) as [Hx|Hx],
             (decide (x ∈ c :: ds)) as [Hx'|Hx']; try done; exfalso.
    all: first [ by subst; apply Hc
               | by apply Hx'; subst; left
               | by apply Hx'; right
               | by apply elem_of_cons in Hx' as [->|?] ]. }
  destruct (Hsplit "e"%char) as [He _]. destruct (Hsplit "t"%char) as [_ Ht]. lia.
Qed.

Lemma unique_from_length {A} `{EqDecision A} (p : A) l :
  (length (Std.unique_from p l) ≤ length l)%nat.
Proof.
  revert p. induction l as [|x l IH]; intros p; simpl; [done|].
  destruct (decide (x = p)); simpl; [specialize (IH p)|specialize (IH x)]; lia.
Qed.

Lemma distinct_letters_length w : (length (distinct_letters w) ≤ length w)%nat.
Proof.
  unfold distinct_letters.
  rewrite <-(Permutation_length (merge_sort_Permutation (Std.not_after char_less) w)).
  fold (Std.sort char_less w). destruct (Std.sort char_less w) as [|p l]; [done|].
  simpl. pose proof (unique_from_length p l). lia.
Qed.

(** X19: a word of five lower-case letters, such as every word the loaders
    return, scores at least 200 and at most 45000; so the [int] in which
    [score] adds up stays far from overflow. *)
Theorem score_canonical_range (w : word) :
  canonical w → 200 ≤ score w ≤ 45000.
Proof.
  intros [Hlen Hall]. split.
  - destruct w as [|c w]; [done|]. apply Forall_cons in Hall as [Hc _].
    trans (weight_of c); [by apply islower_weight|].
    change (weight_of c) with (score [c]).
    apply score_le_subset. intros d ->%list_elem_of_singleton. by left.
  - rewrite score_sum_weights.
    pose proof (sum_weights_le _ (distinct_letters_NoDup w)) as Hle.
    pose proof (distinct_letters_length w) as Hn.
    repeat case_decide; lia.
Qed.

Lemma score_canonical_range_witness :
  canonical (str "zzzzz") ∧ 200 ≤ score (str "zzzzz") ≤ 45000 ∧
  score (str "zzzzz") = 200 ∧ score (str "tenia") = 45000.
Proof.
  assert (canonical (str "zzzzz")) as Hz by (by apply (bool_decide_unpack _)).
  split; [exact Hz|]. split; [exact (score_canonical_range (str "zzzzz") Hz)|].
  split; reflexivity.
Defined.

(** X20: the best start word is at least as good as every candidate: no
    word that survives the constraints and the dictionary scores more than
    [best_word], which is taken from the whole corpus. *)
Theorem best_word_bounds_candidates
    (cs : list constraint) (words dictionary_words out : list word) (best : word) :
  best_word words = Some best →
  filter_candidates cs words dictionary_words = Some out →
  ∀ w, w ∈ out → score w ≤ score best.
Proof.
  intros Hbest (_ & _ & Hin)%filter_candidates_spec w [Hw _]%Hin.
  destruct words as [|front rest]; [done|].
  rewrite best_word_foldl in Hbest. injection Hbest as <-.
  apply (last_of_max_score_bound (front :: rest)); [apply foldl_better_last|done].
Qed.

Lemma best_word_bounds_candidates_witness :
  best_word (str <$> ["rebel"; "bezel"; "tenia"; "slate"]%string) = Some (str "tenia") ∧
  filter_candidates main_cs (str <$> ["rebel"; "bezel"; "tenia"; "slate"]%string)
                    (str <$> ["bezel"; "rebel"]%string)
  = Some (str <$> ["bezel"; "rebel"]%string) ∧
  score (str "rebel") ≤ score (str "tenia").
Proof.
  assert (best_word (str <$> ["rebel"; "bezel"; "tenia"; "slate"]%string)
          = Some (str "tenia")) as Hbest by reflexivity.
  assert (filter_candidates main_cs (str <$> ["rebel"; "bezel"; "tenia"; "slate"]%string)
            (str <$> ["bezel"; "rebel"]%string)
          = Some (str <$> ["bezel"; "rebel"]%string)) as Hf by (by vm_compute).
  split; [exact Hbest|]. split; [exact Hf|].
  apply (best_word_bounds_candidates _ _ _ _ _ Hbest Hf).
  apply list_elem_of_further, list_elem_of_here.
Defined.



(** ** Edges *)

Lemma word_at_length w : word_at w (Z.of_nat (length w)) = Some zero.
Proof.
  unfold word_at. rewrite Z.ltb_irrefl, andb_false_r. by rewrite Z.eqb_refl.
Qed.

(** X22: the position one past the last char.  There [word[pos]] is the
    terminator, so for a letter that is not NUL a [perfect] constraint at
    that position rejects the word, and a [present] constraint that excludes
    only that position asks no more than that the letter is in the word. *)
Theorem position_at_length (w : word) (c : constraint) (fail : bool) :
  letter c ≠ zero →
  (kind c = perfect → position c = Some (Z.of_nat (length w)) →
     check_constraint w c fail = Some true) ∧
  (kind c = present → exclude_positions c = [Z.of_nat (length w)] →
     check_constraint w c fail = Some (if contains w (letter c) then fail else true)).
Proof.
  intros Hletter. unfold check_constraint. split.
  - intros -> ->. simpl. rewrite word_at_length. simpl.
    by rewrite decide_True by done.
  - intros -> ->. destruct (contains w (letter c)); simpl; [|done].
    rewrite word_at_length. simpl. by rewrite decide_False by done.
Qed.

Lemma position_at_length_witness :
  solve [Constraint perfect "o" (Some 5) []] [str "hello"] = Some [] ∧
  solve [Constraint present "o" None [5]] [str "hello"] = Some [str "hello"].
Proof.
  assert ("o"%char ≠ zero) as Ho by discriminate.
  pose proof (proj1 (position_at_length (str "hello")
                       (Constraint perfect "o" (Some 5) []) false Ho) eq_refl eq_refl) as H1.
  pose proof (proj2 (position_at_length (str "hello")
                       (Constraint present "o" None [5]) false Ho) eq_refl eq_refl) as H2.
  unfold solve, solve_loop, word_fails, check_constraints. rewrite H1, H2. by split.
Defined.

Lemma validate_carriage_return line :
  validate (line ++ ["013"%char]) = validate line.
Proof.
  rewrite !validate_trimmed.
  replace (line ++ ["013"%char]) with ([] ++ line ++ ["013"%char]) by done.
  rewrite trimmed_outer_space; [done|constructor|by repeat constructor].
Qed.

(** X23: line endings.  A word list whose lines end with a carriage return
    before the newline loads as the same list without the carriage
    returns. *)
Theorem load_words_crlf (lines : list word) :
  Forall (λ line, "010"%char ∉ line) lines →
  load_words (Some (unlines ((λ line, line ++ ["013"%char]) <$> lines)))
  = load_words (Some (unlines lines)).
Proof.
  intros Hlines. unfold load_words, read_lines.
  rewrite !getlines_unlines; [|done|].
  - clear Hlines. rewrite !load_loop_accepted.
    induction lines as [|line lines IH]; [done|].
    rewrite fmap_cons, !filter_cons, validate_carriage_return.
    destruct (decide ((validate line).1 = true)); [|done].
    by rewrite !fmap_cons, validate_carriage_return, IH.
  - rewrite Forall_fmap. eapply Forall_impl; [exact Hlines|].
    intros line Hline [?|[=]%list_elem_of_singleton]%elem_of_app. done.
Qed.

Lemma load_words_crlf_witness :
  load_words (Some (str "Crane" ++ ["013"; "010"]%char ++ str "xy" ++ ["013"; "010"]%char))
  = [str "crane"].
Proof.
  assert (Forall (λ line, "010"%char ∉ line) [str "Crane"; str "xy"]) as Hlines.
  { repeat constructor; by apply (bool_decide_unpack _). }
  transitivity (load_words (Some (unlines [str "Crane"; str "xy"]))); [|reflexivity].
  exact (load_words_crlf [str "Crane"; str "xy"] Hlines).
Defined.
